(** * kiri.js: the commit selection, view switching and page navigation logic

    A shallow embedding of the state-handling functions of
    [assets/kiri.js], the front-end of the Kiri visual diff viewer, and
    the properties of them that the specification relies on.

    The DOM is modelled by the values the script reads and writes: a list
    of checkboxes is the list of their [checked] flags, a radio group is
    the list of its inputs, a global variable is a field of a record. The
    HTML page and the libraries the script drives (jQuery, svg-pan-zoom,
    gitgraph) are not part of the sources; what the script expects of them
    is said where it is used. *)

From Stdlib Require Import ZArith NArith Lia Ascii String.
From stdpp Require Import base tactics option relations list sorting strings.

Local Open Scope Z_scope.

(** ** JavaScript values and exceptions *)

(** A value held in an array of indices: a number, [NaN], or [undefined]
    (what reading past the end of an array gives). *)
Inductive jsnum :=
  | Num (z : Z)
  | NaN
  | Undefined.

(** [a + k] and [a - k] for a number [k]: anything but a number gives NaN. *)
Definition js_add (a : jsnum) (k : Z) : jsnum :=
  match a with Num z => Num (z + k) | _ => NaN end.

Definition js_sub (a : jsnum) (k : Z) : jsnum :=
  match a with Num z => Num (z - k) | _ => NaN end.

(** Relational operators: a comparison with NaN or undefined is false. *)
Definition js_ge (a b : jsnum) : bool :=
  match a, b with Num x, Num y => bool_decide (x >= y) | _, _ => false end.

Definition js_le (a b : jsnum) : bool :=
  match a, b with Num x, Num y => bool_decide (x <= y) | _, _ => false end.

Definition js_lt (a b : jsnum) : bool :=
  match a, b with Num x, Num y => bool_decide (x < y) | _, _ => false end.

Definition js_gt (a b : jsnum) : bool :=
  match a, b with Num x, Num y => bool_decide (x > y) | _, _ => false end.

(** [a == b]: undefined equals itself, NaN equals nothing. *)
Definition js_eq (a b : jsnum) : bool :=
  match a, b with
  | Num x, Num y => bool_decide (x = y)
  | Undefined, Undefined => true
  | _, _ => false
  end.

(** [a[k]]: reading past the end gives undefined. *)
Definition js_get (a : list jsnum) (k : nat) : jsnum :=
  default Undefined (a !! k).

(** [a[k] = v]: writing past the end extends the array, the gap reads as
    undefined. *)
Definition js_set (a : list jsnum) (k : nat) (v : jsnum) : list jsnum :=
  if decide (k < length a)%nat then <[k := v]> a
  else a ++ replicate (k - length a) Undefined ++ [v].

(** The result of running a function body: it returns, or it throws a
    [TypeError] (a property of [undefined] was read or written); in both
    cases the state reached is kept. *)
Inductive outcome (A : Type) :=
  | Done (a : A)
  | TypeError (a : A).
Arguments Done {A} a.
Arguments TypeError {A} a.

Definition state_of {A} (o : outcome A) : A :=
  match o with Done a | TypeError a => a end.

Definition bind {A} (o : outcome A) (f : A → outcome A) : outcome A :=
  match o with
  | Done a => f a
  | TypeError a => TypeError a
  end.

Notation "o >>> f" := (bind o f) (at level 50, left associativity).

(** ** The commit checkboxes *)

Module Commits.

(** [$("#commits_form input:checkbox[name='commit']")] is modelled by the
    [checked] flag of every commit checkbox, in document order. *)

(** The loop
<<
    for (i = 0; i < commits.length; i++) {
        if (commits[i].checked) { selected_commits.push(i); ... }
    }
>>
    started at index [k]. *)
Fixpoint checked_from (k : Z) (commits : list bool) : list Z :=
  match commits with
  | [] => []
  | c :: rest =>
      if c then k :: checked_from (k + 1) rest else checked_from (k + 1) rest
  end.

Definition selected_indices (commits : list bool) : list Z :=
  checked_from 0 commits.

(** [commits[v].checked = b]; [commits[v]] is undefined unless [v] is an
    index of the list, and writing a property of undefined throws. *)
Definition set_checked (b : bool) (v : jsnum) (commits : list bool)
  : outcome (list bool) :=
  match v with
  | Num z =>
      if decide (0 <= z < Z.of_nat (length commits))
      then Done (<[Z.to_nat z := b]> commits)
      else TypeError commits
  | _ => TypeError commits
  end.

(** [for (i = 0; i < selected_commits.length; i++) commits[a[i]].checked = b;]
    with [i] running over [idxs]. *)
Fixpoint set_all (b : bool) (a : list jsnum) (idxs : list nat)
    (commits : list bool) : outcome (list bool) :=
  match idxs with
  | [] => Done commits
  | i :: rest => set_checked b (js_get a i) commits >>> set_all b a rest
  end.

(** The common tail of the four navigation functions:
<<
    for (i = 0; i < selected_commits.length; i++) {
        commits[selected_commits[i]].checked = false;
    }
    for (i = 0; i < selected_commits.length; i++) {
        commits[next_selected_commits[i]].checked = true;
    }
    update_commits();
>>
    [update_commits] and the functions it calls read and write no commit
    checkbox, so the checkboxes are left as the two loops leave them. *)
Definition update_selected (selected next : list jsnum) (commits : list bool)
  : outcome (list bool) :=
  let idxs := seq 0 (length selected) in
  set_all false selected idxs commits >>> set_all true next idxs.

Definition len (commits : list bool) : Z := Z.of_nat (length commits).

(** The two arrays filled by the scanning loop, [d] being [+1] or [-1]. *)
Definition selected_commits (commits : list bool) : list jsnum :=
  Num <$> selected_indices commits.

Definition shifted_commits (d : Z) (commits : list bool) : list jsnum :=
  (λ i, Num (i + d)) <$> selected_indices commits.

Definition select_next_2_commits (commits : list bool) : outcome (list bool) :=
  let selected := selected_commits commits in
  let next := shifted_commits 1 commits in
  (* When second commit reaches the end, moves the first commit forward *)
  let next :=
    if js_ge (js_get next 1) (Num (len commits)) then
      let next := js_set next 1 (Num (len commits - 1)) in
      if js_le (js_get next 0) (Num (len commits - 2))
      then js_set next 0 (js_add (js_get selected 0) 1)
      else next
    else
      (* By default does not change the first commit *)
      js_set next 0 (js_get selected 0) in
  (* Fix bottom boundary *)
  let next :=
    if js_ge (js_get next 0) (js_get next 1)
    then js_set next 0 (js_sub (js_get next 1) 1) else next in
  (* Fix bottom boundary *)
  let next :=
    if js_ge (js_get next 0) (Num (len commits - 2))
    then js_set next 0 (Num (len commits - 2)) else next in
  update_selected selected next commits.

Definition select_next_commit (commits : list bool) : outcome (list bool) :=
  let selected := selected_commits commits in
  let next := shifted_commits 1 commits in
  (* Fix bottom boundary *)
  let next :=
    if js_ge (js_get next 1) (Num (len commits - 1))
    then js_set next 1 (Num (len commits - 1)) else next in
  (* Fix bottom boundary *)
  let next :=
    if js_ge (js_get next 0) (Num (len commits - 2))
    then js_set next 0 (Num (len commits - 2)) else next in
  update_selected selected next commits.

Definition select_previows_2_commits (commits : list bool)
  : outcome (list bool) :=
  let selected := selected_commits commits in
  let next := shifted_commits (-1) commits in
  (* By default does not change the first commit *)
  let next := js_set next 0 (js_get selected 0) in
  (* When commits are touching, move first backwards (if possible) *)
  let next :=
    if js_eq (js_get next 1) (js_get next 0) then
      if js_gt (js_get next 0) (Num 0)
      then js_set next 0 (js_sub (js_get next 0) 1)
      else next
    else next in
  (* Fix top boundary *)
  let next :=
    if js_lt (js_get next 0) (Num 0) then js_set next 0 (Num 0) else next in
  (* Fix top boundary *)
  let next :=
    if js_le (js_get next 1) (Num 1) then js_set next 1 (Num 1) else next in
  update_selected selected next commits.

Definition select_previows_commit (commits : list bool)
  : outcome (list bool) :=
  let selected := selected_commits commits in
  let next := shifted_commits (-1) commits in
  (* Fix top boundary *)
  let next :=
    if js_le (js_get next 0) (Num 0) then js_set next 0 (Num 0) else next in
  (* Fix top boundary *)
  let next :=
    if js_le (js_get next 1) (Num 1) then js_set next 1 (Num 1) else next in
  update_selected selected next commits.

(** [reset_commits_selection]: every checkbox is unchecked, then the first
    two are checked; with fewer than two checkboxes the second loop
    throws. *)
Definition reset_commits_selection (commits : list bool)
  : outcome (list bool) :=
  let commits := replicate (length commits) false in
  set_checked true (Num 0) commits >>> set_checked true (Num 1).

(** The [change] handler installed on every commit checkbox:
<<
    var max_allowed = 2;
    var count = $("input[name='commit']:checked").length;
    if (count > max_allowed) { ... }
>>
    where the body sets the [checked] property of [this], the checkbox at
    index [k], to the empty string, which unchecks it. The count is taken
    over the commit checkboxes of the form. *)
Definition count_checked (commits : list bool) : Z :=
  Z.of_nat (length (filter (λ c, c = true) commits)).

Definition on_change (k : nat) (commits : list bool) : list bool :=
  let max_allowed := 2 in
  let count := count_checked commits in
  if bool_decide (count > max_allowed) then <[k := false]> commits
  else commits.

(** A click of the user on checkbox [k]: the browser toggles it, then runs
    the [change] handler. *)
Definition user_click (k : nat) (commits : list bool) : list bool :=
  match commits !! k with
  | Some c => on_change k (<[k := negb c]> commits)
  | None => commits
  end.

(** The four key bindings that move the selection:
<<
    Mousetrap.bind(['ctrl+down', ...], function () { select_next_2_commits() });
    Mousetrap.bind(['down', ']'], function () { select_next_commit() });
    Mousetrap.bind(['ctrl+up', ...], function () { select_previows_2_commits() });
    Mousetrap.bind(['up', '['], function () { select_previows_commit() });
>> *)
Inductive navigation := Next2 | Next | Previows2 | Previows.

Definition navigate (op : navigation) : list bool → outcome (list bool) :=
  match op with
  | Next2 => select_next_2_commits
  | Next => select_next_commit
  | Previows2 => select_previows_2_commits
  | Previows => select_previows_commit
  end.


(** One event on the commits form: a click on a checkbox, one of the four
    navigation keys, or the reset key; an event that throws leaves the
    form as it was when the exception was raised. *)
Inductive step : list bool → list bool → Prop :=
  | step_click k commits : step commits (user_click k commits)
  | step_navigate op commits : step commits (state_of (navigate op commits))
  | step_reset commits :
      step commits (state_of (reset_commits_selection commits)).

(** Exactly the entries [i < j] of the list are checked. *)
Definition two_checked (commits : list bool) (i j : Z) : Prop :=
  0 <= i < j ∧ j < len commits ∧
  ∀ m : nat, commits !! m = Some true ↔ Z.of_nat m = i ∨ Z.of_nat m = j.

(** The list with [i] and [j] unchecked, then [i'] and [j'] checked. *)
Definition moved (commits : list bool) (i j i' j' : Z) : list bool :=
  <[Z.to_nat j' := true]> (<[Z.to_nat i' := true]>
    (<[Z.to_nat j := false]> (<[Z.to_nat i := false]> commits))).

(** The first loop of [update_selected], run to its end. *)
Definition uncheck_all (zs : list Z) (commits : list bool) : list bool :=
  foldl (λ acc z, <[Z.to_nat z := false]> acc) commits zs.

End Commits.

(** ** Clicking a commit of the graph *)

Module Graph.

(** A value that is a string or [undefined]: [commit1] and [commit2] are
    undefined until [select_initial_commits] has run. *)
Definition jsstr := option string.

(** An entry of [gitgraph._graph.commits], with the two style fields that
    [commit_click] writes. *)
Record commit := {
  hash : string;
  message_color : string;
  dot_color : string;
}.

Record state := {
  commits : list commit;
  commit1 : jsstr;
  commit2 : jsstr;
}.

(** [c.hash == v] *)
Definition hash_is (v : jsstr) (c : commit) : bool :=
  bool_decide (Some (hash c) = v).

(** The first loop of [commit_click], from index [i] on, the three indices
    found so far being [idx]:
<<
    for (let i = 0; i < gitgraph._graph.commits.length; i++) {
        if (gitgraph._graph.commits[i].hash == hash) { hash_idx = i; }
        if (gitgraph._graph.commits[i].hash == commit1) { commit1_idx = i; }
        if (gitgraph._graph.commits[i].hash == commit2) { commit2_idx = i; }
    }
>> *)
Fixpoint find_indices (hash commit1 commit2 : jsstr) (cs : list commit)
    (i : Z) (idx : Z * Z * Z) : Z * Z * Z :=
  match cs with
  | [] => idx
  | c :: rest =>
      let '(hash_idx, commit1_idx, commit2_idx) := idx in
      let hash_idx := if hash_is hash c then i else hash_idx in
      let commit1_idx := if hash_is commit1 c then i else commit1_idx in
      let commit2_idx := if hash_is commit2 c then i else commit2_idx in
      find_indices hash commit1 commit2 rest (i + 1)
        (hash_idx, commit1_idx, commit2_idx)
  end.

(** The second loop: the two selected commits are coloured, the others
    reset. *)
Definition recolor (commit1 commit2 : jsstr) (c : commit) : commit :=
  if hash_is commit1 c then
    {| hash := hash c; message_color := "#0FF"; dot_color := "#0FF" |}
  else if hash_is commit2 c then
    {| hash := hash c; message_color := "#F00"; dot_color := "#F00" |}
  else
    {| hash := hash c; message_color := "#fff"; dot_color := EmptyString |}.

(** [commit_click(hash)], up to its calls of [gitgraph._graph.next()] and
    [update_commits()], which redraw the graph and the diff from [commit1]
    and [commit2]: [update_commits] copies the two hashes into the inputs
    of the legend, from where [update_fullscreen_label] reads them back. *)
Definition commit_click (hash : jsstr) (s : state) : state :=
  let '(hash_idx, commit1_idx, commit2_idx) :=
    find_indices hash (commit1 s) (commit2 s) (commits s) 0 (0, 0, 0) in
  let '(c1, c2) :=
    if bool_decide (hash_idx <= commit2_idx) then (commit1 s, hash)
    else if bool_decide (hash_idx >= commit1_idx) then (hash, commit2 s)
    else if bool_decide (hash_idx - commit2_idx < commit1_idx - hash_idx)
    then (commit1 s, hash)
    else (hash, commit2 s) in
  {| commits := recolor c1 c2 <$> commits s; commit1 := c1; commit2 := c2 |}.

(** The index left in one of the three variables by the first loop, [acc]
    being its value before index [i]: the last index whose hash is [v]. *)
Fixpoint last_index (v : jsstr) (cs : list commit) (i acc : Z) : Z :=
  match cs with
  | [] => acc
  | c :: rest => last_index v rest (i + 1) (if hash_is v c then i else acc)
  end.

(** A graph of five commits, the last and the second selected. *)
Definition example_graph : state :=
  {| commits :=
       [ {| hash := "a1"; message_color := "#fff"; dot_color := EmptyString |};
         {| hash := "b2"; message_color := "#F00"; dot_color := "#F00" |};
         {| hash := "c3"; message_color := "#fff"; dot_color := EmptyString |};
         {| hash := "d4"; message_color := "#fff"; dot_color := EmptyString |};
         {| hash := "e5"; message_color := "#0FF"; dot_color := "#0FF" |} ];
     commit1 := Some "e5";
     commit2 := Some "b2" |}.

(** [select_initial_commits()]:
<<
    var commits = gitgraph._graph.commits;
    if (commits.length >= 2) {
        commit1 = commits[commits.length - 1].hash;
        commit2 = commits[commits.length - 2].hash;
    }
    else if (commits.length == 1) {
        commit1 = commits[commits.length - 1].hash;
    }
    // simulate click to highlight them
    commit_click(commit1);
    commit_click(commit2);
>>
    The argument of the second click is read after the first click has
    run. On an empty graph the two clicks are made with the values the
    variables happen to have, undefined at start-up, which
    [update_commits] writes to the legend as text; that case is not
    followed further. *)
Definition select_initial_commits (s : state) : state :=
  let n := length (commits s) in
  let s :=
    if bool_decide (2 ≤ n)%nat then
      {| commits := commits s;
         commit1 := hash <$> commits s !! (n - 1)%nat;
         commit2 := hash <$> commits s !! (n - 2)%nat |}
    else if bool_decide (n = 1%nat) then
      {| commits := commits s;
         commit1 := hash <$> commits s !! (n - 1)%nat;
         commit2 := commit2 s |}
    else s in
  let s := commit_click (commit1 s) s in
  commit_click (commit2 s) s.

(** Clicks on commits of the graph, one after the other. *)
Definition clicks (xs : list string) (s : state) : state :=
  foldl (λ s x, commit_click (Some x) s) s xs.

(** [commit1] and [commit2] are commits of the graph, [commit2] standing
    strictly before [commit1]. *)
Definition selection_ordered (s : state) : Prop :=
  ∃ (c1 c2 : nat) (x1 x2 : string),
    commit1 s = Some x1 ∧ commit2 s = Some x2 ∧
    hash <$> commits s !! c1 = Some x1 ∧
    hash <$> commits s !! c2 = Some x2 ∧
    (c2 < c1)%nat.

(** A graph of one commit, before [select_initial_commits] has run. *)
Definition example_single_commit : state :=
  {| commits :=
       [ {| hash := "a1"; message_color := "#fff";
            dot_color := EmptyString |} ];
     commit1 := None;
     commit2 := None |}.

End Graph.

(** ** Probing a URL *)

Module Http.

Local Open Scope N_scope.

(** [Number.prototype.toString] on a non-negative integer: its decimal
    digits, most significant first. [fuel] bounds the number of digits. *)
Definition digit_char (d : N) : ascii := ascii_of_N (48 + d).

Fixpoint to_digits (fuel : nat) (n : N) (acc : string) : string :=
  match fuel with
  | O => acc
  | S fuel =>
      let acc := String (digit_char (n mod 10)) acc in
      if n / 10 =? 0 then acc else to_digits fuel (n / 10) acc
  end.

Definition toString (n : N) : string :=
  to_digits (S (N.size_nat n)) n EmptyString.

(** [s[0]] *)
Definition first_char (s : string) : option ascii :=
  match s with
  | EmptyString => None
  | String c _ => Some c
  end.

(** What the [onprogress] handler does to the request and the callback. *)
Inductive action :=
  | Abort
  | Callback (exists_ : bool).

(** The handler that [if_url_exists(url, callback)] installs on its
    request, run on an event whose target has the given [status]:
<<
    let status = event.target.status;
    let statusFirstNumber = (status).toString()[0];
    switch (statusFirstNumber) {
        case '2': request.abort(); return callback(true);
        default:  request.abort(); return callback(false);
    }
>> *)
Definition onprogress (status : N) : list action :=
  let statusFirstNumber := first_char (toString status) in
  if bool_decide (statusFirstNumber = Some "2"%char)
  then [Abort; Callback true]
  else [Abort; Callback false].

(** [if_url_exists(url, callback)] sends an asynchronous GET request for
    [url] with that handler installed and returns; the callback is reached
    through the handler only. [progress] lists the status read at each
    progress event the browser would deliver for the request; as the
    handler aborts the request, the first event is the only one handled. *)
Definition if_url_exists (progress : list N) : list action :=
  match progress with
  | [] => []
  | status :: _ => onprogress status
  end.

End Http.

(** ** The list of schematic sheets *)

Module Sheets.

(** [s.split(sep)] for a one-character separator: the pieces between the
    separators, an empty string giving one empty piece. *)
Fixpoint split (sep : ascii) (s : string) : list string :=
  match s with
  | EmptyString => [EmptyString]
  | String c rest =>
      if decide (c = sep) then EmptyString :: split sep rest
      else match split sep rest with
           | piece :: pieces => String c piece :: pieces
           | [] => [String c EmptyString]
           end
  end.

(** The result of the synchronous request made by [loadFile]. *)
Record response := {
  status : N;
  responseText : string;
}.

(** [loadFile(filePath)], given the server's answer for [filePath]:
<<
    var result = null;
    ...
    if (xmlhttp.status == 200) { result = xmlhttp.responseText; }
    return result;
>>
    [None] is the [null] result. *)
Definition loadFile (answer : response) : option string :=
  if bool_decide (status answer = 200%N) then Some (responseText answer)
  else None.

Definition newline : ascii := "010"%char.
Definition pipe : ascii := "|"%char.

(** [text.split("\n").filter((a) => a)]: the non-empty lines. *)
Definition lines (text : string) : list string :=
  filter (λ a, a ≠ EmptyString) (split newline text).

(** [d.split("|")[0]] *)
Definition first_field (d : string) : string :=
  match split pipe d with
  | piece :: _ => piece
  | [] => EmptyString
  end.

(** [Array.from(new Set(sheets))]: a set keeps its elements in the order of
    their first insertion. *)
Definition array_from_set (sheets : list string) : list string :=
  foldl (λ set x, if bool_decide (x ∈ set) then set else set ++ [x])
        [] sheets.

(** The two loops of [update_sheets_list] that fill [sheets]:
<<
    for (const d of data1) {
        sheet = d.split("|")[0];
        sheets.push(sheet);
    }
    for (const d of data2) {
        sheet = d.split("|")[0];
        if (!sheets.includes(sheet)) { sheets.push(sheet); }
    }
    sheets = Array.from(new Set(sheets));
>> *)
Definition push_all (sheets data1 : list string) : list string :=
  foldl (λ sheets d, sheets ++ [first_field d]) sheets data1.

Definition push_new (sheets data2 : list string) : list string :=
  foldl (λ sheets d,
           let sheet := first_field d in
           if bool_decide (sheet ∈ sheets) then sheets else sheets ++ [sheet])
        sheets data2.

Definition sheets_of (data1 data2 : list string) : list string :=
  array_from_set (push_new (push_all [] data1) data2).

(** [a.toString()] of an array of strings: the elements joined by commas. *)
Fixpoint toString (a : list string) : string :=
  match a with
  | [] => EmptyString
  | [x] => x
  | x :: rest => x +:+ "," +:+ toString rest
  end.

(** The elements of a list in the order of their first occurrence. *)
Fixpoint first_occurrences (l : list string) : list string :=
  match l with
  | [] => []
  | x :: rest => x :: filter (λ y, y ≠ x) (first_occurrences rest)
  end.



End Sheets.

(** ** The page and layer radio lists *)

Module Pages.

(** A radio input of [#pages_list] or [#layers_list]; for a page the [id]
    and the [value] are both the sheet name. *)
Record radio := {
  id : string;
  checked : bool;
}.

(** [rs.index(rs.filter(':checked'))]: the index of the first checked
    input, [-1] when none is checked. *)
Fixpoint checked_index_from (i : Z) (rs : list radio) : Z :=
  match rs with
  | [] => -1
  | r :: rest => if checked r then i else checked_index_from (i + 1) rest
  end.

Definition checked_index (rs : list radio) : Z := checked_index_from 0 rs.

Definition set_radio (b : bool) (r : radio) : radio :=
  {| id := id r; checked := b |}.

(** Checking input [k] of a radio group unchecks the others. *)
Definition check_only (k : nat) (rs : list radio) : list radio :=
  imap (λ i r, set_radio (bool_decide (i = k)) r) rs.

(** [rs[k].checked = true]; [rs[k]] is undefined, and the assignment
    throws, unless [k] is an index of [rs]. *)
Definition radio_check (k : Z) (rs : list radio) : outcome (list radio) :=
  if decide (0 <= k < Z.of_nat (length rs))
  then Done (check_only (Z.to_nat k) rs)
  else TypeError rs.

(** [$("...[value='" + v + "']").prop('checked', true)]: every input with
    that value is checked in turn. *)
Definition check_value (v : string) (rs : list radio) : list radio :=
  foldl (λ rs k, check_only k rs) rs
        (filter (λ k, id <$> rs !! k = Some v) (seq 0 (length rs))).

Record state := {
  show_sch_checked : bool;
  current_view : option string;
  pages : list radio;
  layers : list radio;
  previous_selected_page : Z;
  current_selected_page : Z;
  selected_sheet : option string;
}.

Definition set_pages (rs : list radio) (s : state) : state :=
  {| show_sch_checked := show_sch_checked s;
     current_view := current_view s;
     pages := rs;
     layers := layers s;
     previous_selected_page := previous_selected_page s;
     current_selected_page := current_selected_page s;
     selected_sheet := selected_sheet s |}.

Definition set_layers (rs : list radio) (s : state) : state :=
  {| show_sch_checked := show_sch_checked s;
     current_view := current_view s;
     pages := pages s;
     layers := rs;
     previous_selected_page := previous_selected_page s;
     current_selected_page := current_selected_page s;
     selected_sheet := selected_sheet s |}.

Definition set_previous_selected_page (p : Z) (s : state) : state :=
  {| show_sch_checked := show_sch_checked s;
     current_view := current_view s;
     pages := pages s;
     layers := layers s;
     previous_selected_page := p;
     current_selected_page := current_selected_page s;
     selected_sheet := selected_sheet s |}.

Definition set_current_selected_page (p : Z) (s : state) : state :=
  {| show_sch_checked := show_sch_checked s;
     current_view := current_view s;
     pages := pages s;
     layers := layers s;
     previous_selected_page := previous_selected_page s;
     current_selected_page := p;
     selected_sheet := selected_sheet s |}.

Definition set_selected_sheet (v : option string) (s : state) : state :=
  {| show_sch_checked := show_sch_checked s;
     current_view := current_view s;
     pages := pages s;
     layers := layers s;
     previous_selected_page := previous_selected_page s;
     current_selected_page := current_selected_page s;
     selected_sheet := v |}.

(** Running a step on the page list of a state. *)
Definition on_pages (f : list radio → outcome (list radio)) (s : state)
  : outcome state :=
  match f (pages s) with
  | Done rs => Done (set_pages rs s)
  | TypeError rs => TypeError (set_pages rs s)
  end.

Definition on_layers (f : list radio → outcome (list radio)) (s : state)
  : outcome state :=
  match f (layers s) with
  | Done rs => Done (set_layers rs s)
  | TypeError rs => TypeError (set_layers rs s)
  end.

(** The answers of the server to the two [loadFile] calls of
    [update_sheets_list], for the [sch_sheets] files of [commit1] and
    [commit2]. *)
Record server := {
  sch_sheets1 : Sheets.response;
  sch_sheets2 : Sheets.response;
}.

(** [update_sheets_list(commit1, commit2)]. The inputs that the browser
    builds from the new [innerHTML] are one unchecked radio per sheet, its
    [id] and [value] being the sheet name (a name free of HTML markup).
    After the rebuild the variable [pages] still holds the inputs queried
    before it, so only the lookup by value reaches the new inputs; the
    writes through [pages] can only throw. *)
Definition update_sheets_list (srv : server) (s : state) : outcome state :=
  let old := pages s in
  (* Save the current selected page, if any *)
  let s :=
    match old !! Z.to_nat (checked_index old) with
    | Some r =>
        if bool_decide (0 <= checked_index old)
        then set_selected_sheet (Some (id r)) s else s
    | None => s
    end in
  match Sheets.loadFile (sch_sheets1 srv), Sheets.loadFile (sch_sheets2 srv)
  with
  | Some text1, Some text2 =>
      let sheets :=
        Sheets.sheets_of (Sheets.lines text1) (Sheets.lines text2) in
      let new_sheets_list := sheets in
      let current_sheets_list := id <$> old in
      (* Return if the current list is equal to the new list *)
      if bool_decide (Sheets.toString current_sheets_list
                      = Sheets.toString new_sheets_list)
      then Done s
      else
        match sheets with
        | [] => TypeError s   (* form_inputs_html is undefined *)
        | _ =>
            let fresh :=
              (λ sheet, {| id := sheet; checked := false |}) <$> sheets in
            let optionLabels := id <$> old in
            let hasOption :=
              match selected_sheet s with
              | Some v => bool_decide (v ∈ optionLabels)
              | None => false
              end in
            if hasOption then
              (* Keep previews selection active *)
              let v := default EmptyString (selected_sheet s) in
              Done (set_pages (check_value v fresh) s)
            else
              match old with
              | [] => TypeError (set_pages fresh s)
              | _ => Done (set_pages fresh s)
              end
        end
  | _, _ => TypeError s   (* null.split *)
  end.

(** [update_page()], as far as the page list and the page variables go; the
    rest of it (the image paths, the embed, the fullscreen label) writes
    none of them. *)
Definition update_page (srv : server) (s : state) : outcome state :=
  update_sheets_list srv s >>> λ s,
  (* if a different page was in use before, revert the selection to it *)
  (if bool_decide (previous_selected_page s > -1) then
     on_pages (radio_check (previous_selected_page s)) s >>> λ s,
     Done (set_previous_selected_page (-1) s)
   else Done s) >>> λ s,
  (* try to get the first page *)
  let selected_page := checked_index (pages s) in
  if bool_decide (0 <= selected_page) then
    Done (set_current_selected_page selected_page s)
  else
    (* if there is no page selected, select the first one *)
    let s := set_previous_selected_page (current_selected_page s) s in
    on_pages (radio_check 0) s.

(** The index computed by [select_next_sch_or_pcb] for the radio list [rs]
    (the same statements serve the pages and the layers). *)
Definition next_index (cycle : bool) (rs : list radio) : Z :=
  let new_index := checked_index rs + 1 in
  if bool_decide (new_index >= Z.of_nat (length rs)) then
    if cycle then 0 else Z.of_nat (length rs) - 1
  else new_index.

(** The index computed by [select_preview_sch_or_pcb]. *)
Definition preview_index (cycle : bool) (rs : list radio) : Z :=
  let new_index := checked_index rs - 1 in
  if bool_decide (new_index < 0) then
    if cycle then Z.of_nat (length rs) - 1 else 0
  else new_index.

(** [select_next_sch_or_pcb(cycle)]. On the layer side the closing call of
    [update_layer()] reads the index just checked and checks it again
    ("restore previously selected index"); it is left out. *)
Definition select_next_sch_or_pcb (cycle : bool) (srv : server) (s : state)
  : outcome state :=
  if show_sch_checked s then
    on_pages (radio_check (next_index cycle (pages s))) s >>> update_page srv
  else
    on_layers (radio_check (next_index cycle (layers s))) s.

(** [select_preview_sch_or_pcb(cycle)]; in the 3D view it does nothing. *)
Definition select_preview_sch_or_pcb (cycle : bool) (srv : server) (s : state)
  : outcome state :=
  if bool_decide (current_view s = Some "show_sch") then
    on_pages (radio_check (preview_index cycle (pages s))) s
      >>> update_page srv >>> update_sheets_list srv
  else if bool_decide (current_view s = Some "show_pcb") then
    on_layers (radio_check (preview_index cycle (layers s))) s
  else Done s.

(** [update_sheets_list] first saves the name of the selected sheet; that
    changes no other field. *)
Definition same_but_sheet (s s1 : state) : Prop :=
  show_sch_checked s1 = show_sch_checked s ∧
  current_view s1 = current_view s ∧
  pages s1 = pages s ∧
  layers s1 = layers s ∧
  previous_selected_page s1 = previous_selected_page s ∧
  current_selected_page s1 = current_selected_page s.

(** The entry that "next" and "previous" name for a list of [n] inputs
    whose input [k] is selected. *)
Definition next_target (cycle : bool) (n k : Z) : Z :=
  if bool_decide (k + 1 < n) then k + 1 else if cycle then 0 else n - 1.

Definition preview_target (cycle : bool) (n k : Z) : Z :=
  if bool_decide (0 <= k - 1) then k - 1 else if cycle then n - 1 else 0.


(** Both [sch_sheets] files load and list the sheets of the inputs [rs],
    so that [update_sheets_list] keeps the inputs. *)
Definition sheets_unchanged (srv : server) (rs : list radio) : Prop :=
  ∃ text1 text2,
    Sheets.loadFile (sch_sheets1 srv) = Some text1 ∧
    Sheets.loadFile (sch_sheets2 srv) = Some text2 ∧
    Sheets.toString (id <$> rs)
    = Sheets.toString
        (Sheets.sheets_of (Sheets.lines text1) (Sheets.lines text2)).

(** Two [sch_sheets] files, a server that has them, and a page list that
    shows one sheet, selected. *)
Definition example_sheets1 : string :=
  "main|a.kicad_sch" +:+ String Sheets.newline
    ("power|b.kicad_sch" +:+ String Sheets.newline EmptyString).

Definition example_sheets2 : string :=
  "power|b.kicad_sch" +:+ String Sheets.newline
    ("usb|c.kicad_sch" +:+ String Sheets.newline EmptyString).

Definition example_server : server :=
  {| sch_sheets1 := {| Sheets.status := 200;
                       Sheets.responseText := example_sheets1 |};
     sch_sheets2 := {| Sheets.status := 200;
                       Sheets.responseText := example_sheets2 |} |}.

Definition example_pages : state :=
  {| show_sch_checked := true;
     current_view := Some "show_sch";
     pages := [ {| id := "main"; checked := true |} ];
     layers := [];
     previous_selected_page := -1;
     current_selected_page := 0;
     selected_sheet := None |}.

(** The page list of [example_server], its first page selected and no
    restoration pending. *)
Definition example_three_pages : state :=
  {| show_sch_checked := true;
     current_view := Some "show_sch";
     pages := [ {| id := "main"; checked := true |};
                {| id := "power"; checked := false |};
                {| id := "usb"; checked := false |} ];
     layers := [];
     previous_selected_page := -1;
     current_selected_page := 0;
     selected_sheet := Some "main" |}.

(** The same list after a change of commits that took away the sheet that
    was selected: [update_page] has selected the first page and left
    [previous_selected_page] set. *)
Definition example_restoration_pending : state :=
  {| show_sch_checked := true;
     current_view := Some "show_sch";
     pages := [ {| id := "main"; checked := true |};
                {| id := "power"; checked := false |};
                {| id := "usb"; checked := false |} ];
     layers := [];
     previous_selected_page := 0;
     current_selected_page := 0;
     selected_sheet := Some "old" |}.

(** The state before that change of commits: the only page, "old", is
    selected. *)
Definition example_before_change : state :=
  {| show_sch_checked := true;
     current_view := Some "show_sch";
     pages := [ {| id := "old"; checked := true |} ];
     layers := [];
     previous_selected_page := -1;
     current_selected_page := 0;
     selected_sheet := None |}.



End Pages.

(** ** Switching between the schematic, the layout and the 3D view *)

Module View.

(** The two view variables, the three inputs of the [view_mode] group with
    their labels, the titles and lists that are shown or hidden, and the
    [checked] flags of the layer radios, which decide whether
    [update_layer] can show a layer at all. *)
Record state := {
  old_view : option string;
  current_view : option string;
  show_sch_checked : bool;
  show_pcb_checked : bool;
  show_3d_checked : bool;
  show_sch_lbl_active : bool;
  show_pcb_lbl_active : bool;
  show_3d_lbl_active : bool;
  pages_list_display : string;
  sch_title_display : string;
  layers_list_display : string;
  pcb_title_display : string;
  title_3d_display : string;
  layers : list bool;
}.

(** [show_sch()]; its closing call of [update_page()] writes none of the
    fields above. *)
Definition show_sch (s : state) : state :=
  {| old_view := current_view s;
     current_view := Some "show_sch";
     (* Show schematic stuff *)
     show_sch_lbl_active := true;
     show_sch_checked := true;
     pages_list_display := "inline";
     sch_title_display := "inline";
     (* Hide layout stuff *)
     show_pcb_lbl_active := false;
     show_pcb_checked := false;
     layers_list_display := "none";
     pcb_title_display := "none";
     (* Hide 3D stuff *)
     show_3d_lbl_active := false;
     show_3d_checked := false;
     title_3d_display := "none";
     layers := layers s |}.

Definition set_layers (l : list bool) (s : state) : state :=
  {| old_view := old_view s;
     current_view := current_view s;
     show_sch_lbl_active := show_sch_lbl_active s;
     show_sch_checked := show_sch_checked s;
     pages_list_display := pages_list_display s;
     sch_title_display := sch_title_display s;
     show_pcb_lbl_active := show_pcb_lbl_active s;
     show_pcb_checked := show_pcb_checked s;
     layers_list_display := layers_list_display s;
     pcb_title_display := pcb_title_display s;
     show_3d_lbl_active := show_3d_lbl_active s;
     show_3d_checked := show_3d_checked s;
     title_3d_display := title_3d_display s;
     layers := l |}.

(** [update_layer()], as far as the fields above go:
<<
    selected_layer = layers.index(layers.filter(':checked'));
    if (selected_layer >= 0) { ... }
    else {
        try {
            layers[0].checked = true;
            ...
        } catch (error) {
            console.log("[PCB] Images may not exist and ...");
            show_sch();
            return;
        }
    }
>>
    With no layer radio at all, [layers[0]] is undefined, the assignment
    throws and the schematic view is shown instead. *)
Definition update_layer (s : state) : state :=
  if bool_decide (true ∈ layers s) then s
  else
    match layers s with
    | [] => show_sch s
    | _ :: rest => set_layers (true :: rest) s
    end.

Definition show_pcb (s : state) : state :=
  update_layer
    {| old_view := current_view s;
       current_view := Some "show_pcb";
       (* Show layout stuff *)
       show_pcb_lbl_active := true;
       show_pcb_checked := true;
       layers_list_display := "inline";
       pcb_title_display := "inline";
       (* Hide schematic stuff *)
       show_sch_lbl_active := false;
       show_sch_checked := false;
       pages_list_display := "none";
       sch_title_display := "none";
       (* Hide 3D stuff *)
       show_3d_lbl_active := false;
       show_3d_checked := false;
       title_3d_display := "none";
       layers := layers s |}.

(** [show_3d()]; its closing call of [update_3d()] writes none of the
    fields above. *)
Definition show_3d (s : state) : state :=
  {| old_view := current_view s;
     current_view := Some "show_3d";
     (* Show 3D stuff *)
     show_3d_lbl_active := true;
     show_3d_checked := true;
     title_3d_display := "inline";
     (* Hide layout stuff *)
     show_pcb_lbl_active := false;
     show_pcb_checked := false;
     layers_list_display := "none";
     pcb_title_display := "none";
     (* Hide schematic stuff *)
     show_sch_lbl_active := false;
     show_sch_checked := false;
     pages_list_display := "none";
     sch_title_display := "none";
     layers := layers s |}.

(** The three functions, by the input they check. *)
Inductive mode := Sch | Pcb | ThreeD.

Definition name (m : mode) : string :=
  match m with Sch => "show_sch" | Pcb => "show_pcb" | ThreeD => "show_3d" end.

Definition show (m : mode) : state → state :=
  match m with Sch => show_sch | Pcb => show_pcb | ThreeD => show_3d end.

(** [document.getElementById(name m).checked] *)
Definition is_checked (m : mode) (s : state) : bool :=
  match m with
  | Sch => show_sch_checked s
  | Pcb => show_pcb_checked s
  | ThreeD => show_3d_checked s
  end.

#[global] Instance mode_eq_dec : EqDecision mode.
Proof. solve_decision. Defined.

(** Exactly the input of [m] is checked. *)
Definition only_checked (m : mode) (s : state) : Prop :=
  ∀ m', is_checked m' s = bool_decide (m' = m).

(** After the call of [show m] one input is checked, the one named by
    [current_view], and [old_view] is the [current_view] of before. *)
Definition exclusive_after (m : mode) (s : state) : Prop :=
  let s' := show m s in
  (∃ m', current_view s' = Some (name m') ∧ only_checked m' s') ∧
  old_view s' = current_view s.

(** The schematic view of a project that has no layout: the list of layers
    is empty. *)
Definition example_no_layout : state :=
  {| old_view := None;
     current_view := Some "show_sch";
     show_sch_checked := true;
     show_pcb_checked := false;
     show_3d_checked := false;
     show_sch_lbl_active := true;
     show_pcb_lbl_active := false;
     show_3d_lbl_active := false;
     pages_list_display := "inline";
     sch_title_display := "inline";
     layers_list_display := "none";
     pcb_title_display := "none";
     title_3d_display := "none";
     layers := [] |}.

(** [$('#view_mode input[name="view_mode"]:checked').val()]: the value of
    the first checked input of the group, undefined when none is checked.
    The three inputs stand in the order schematic, layout, 3D and each has
    its id for value, the strings that the script compares the result
    with. *)
Definition checked_val (s : state) : option string :=
  if show_sch_checked s then Some "show_sch"
  else if show_pcb_checked s then Some "show_pcb"
  else if show_3d_checked s then Some "show_3d"
  else None.

Definition set_views (old current : option string) (s : state) : state :=
  {| old_view := old;
     current_view := current;
     show_sch_lbl_active := show_sch_lbl_active s;
     show_sch_checked := show_sch_checked s;
     pages_list_display := pages_list_display s;
     sch_title_display := sch_title_display s;
     show_pcb_lbl_active := show_pcb_lbl_active s;
     show_pcb_checked := show_pcb_checked s;
     layers_list_display := layers_list_display s;
     pcb_title_display := pcb_title_display s;
     show_3d_lbl_active := show_3d_lbl_active s;
     show_3d_checked := show_3d_checked s;
     title_3d_display := title_3d_display s;
     layers := layers s |}.

(** [update_commits()], as far as the fields of the state go:
<<
    old_view = current_view;
    current_view = $('#view_mode input[name="view_mode"]:checked').val();
    if (current_view == "show_sch") { update_page(); }
    else if (current_view == "show_pcb") { update_layer(); }
    else if (current_view == "show_3d") { update_3d(); }
>>
    The statements before these copy [commit1] and [commit2] into the
    legend. *)
Definition update_commits (s : state) : state :=
  let s := set_views (current_view s) (checked_val s) s in
  if bool_decide (current_view s = Some "show_pcb") then update_layer s
  else s.

(** [toggle_sch_pcb_view()]:
<<
    old_view = current_view;
    current_view = $('#view_mode input[name="view_mode"]:checked').val();
    if (current_view == "show_sch") { show_pcb(); }
    else if (current_view == "show_pcb") { show_3d(); }
    else if (current_view == "show_3d") { show_sch(); }
    update_commits();
>>
    The show function ends by drawing the view ([update_page],
    [update_layer] or [update_3d]), which can throw once the fields of the
    state are written, when a file of the commit is missing for instance;
    [update_commits] is then not reached. [drawn] tells whether the show
    function returns. When [update_layer] returns it leaves a radio in
    [#layers_list] if it found one. *)
Definition toggle_sch_pcb_view (drawn : bool) (s : state) : outcome state :=
  let s := set_views (current_view s) (checked_val s) s in
  let shown (s' : state) : outcome state :=
    if drawn then Done (update_commits s') else TypeError s' in
  if bool_decide (current_view s = Some "show_sch") then shown (show_pcb s)
  else if bool_decide (current_view s = Some "show_pcb") then
    shown (show_3d s)
  else if bool_decide (current_view s = Some "show_3d") then
    shown (show_sch s)
  else Done (update_commits s).

(** The view that the toggle key goes to from the view of [m]. *)
Definition following (m : mode) : mode :=
  match m with Sch => Pcb | Pcb => ThreeD | ThreeD => Sch end.

(** The schematic view of a project that has a layout of two layers. *)
Definition example_with_layout : state :=
  set_layers [true; false] example_no_layout.

End View.

(** ** Keeping pan and zoom across a change of view *)

Module PanZoom.

Section panzoom.

(** The numbers that the pan/zoom library hands out for a zoom level and
    the points it hands out for a pan offset; [!=] on zoom levels is
    decidable (no zoom level is NaN). An [embed] is the element made by
    [createNewEmbed]. *)
Context {zoom pan embed : Type} `{EqDecision zoom}.

(** What the script asks of the pan/zoom instance in [onUpdatedCTM]. *)
Inductive call :=
  | ZoomTo (z : option zoom)
  | PanTo (p : option pan).

(** A live instance: what [getZoom()] and [getPan()] answer, and the calls
    it has received from [onUpdatedCTM]. *)
Record instance := {
  getZoom : zoom;
  getPan : pan;
  received : list call;
}.

(** The variables read and written by [removeEmbed] and [onUpdatedCTM];
    [None] is [null] (or, for the views, [undefined]). The variable
    [lastEventListener] is null throughout the script and is left out. *)
Record state := {
  old_view : option string;
  current_view : option string;
  panZoom_instance : option instance;
  lastEmbed : option embed;
  sch_current_zoom : option zoom;
  sch_old_zoom : option zoom;
  sch_current_pan : option pan;
  pcb_current_zoom : option zoom;
  pcb_old_zoom : option zoom;
  pcb_current_pan : option pan;
}.

(** [removeEmbed()]: with a live instance, the zoom and the pan are saved
    for the view that is left, the instance is destroyed and the embed
    removed from its container. *)
Definition removeEmbed (s : state) : outcome state :=
  match panZoom_instance s with
  | Some inst =>
      let saved :=
        if bool_decide (old_view s ≠ Some "show_3d") then
          if bool_decide (current_view s = Some "show_pcb") then
            {| old_view := old_view s; current_view := current_view s;
               panZoom_instance := panZoom_instance s;
               lastEmbed := lastEmbed s;
               sch_current_zoom := Some (getZoom inst);
               sch_current_pan := Some (getPan inst);
               sch_old_zoom := None;
               pcb_current_zoom := pcb_current_zoom s;
               pcb_old_zoom := pcb_old_zoom s;
               pcb_current_pan := pcb_current_pan s |}
          else if bool_decide (current_view s = Some "show_sch") then
            {| old_view := old_view s; current_view := current_view s;
               panZoom_instance := panZoom_instance s;
               lastEmbed := lastEmbed s;
               sch_current_zoom := sch_current_zoom s;
               sch_current_pan := sch_current_pan s;
               sch_old_zoom := sch_old_zoom s;
               pcb_current_zoom := Some (getZoom inst);
               pcb_current_pan := Some (getPan inst);
               pcb_old_zoom := None |}
          else s
        else s in
      (* panZoom_instance.destroy(); panZoom_instance = null; *)
      let destroyed :=
        {| old_view := old_view saved; current_view := current_view saved;
           panZoom_instance := None;
           lastEmbed := lastEmbed saved;
           sch_current_zoom := sch_current_zoom saved;
           sch_current_pan := sch_current_pan saved;
           sch_old_zoom := sch_old_zoom saved;
           pcb_current_zoom := pcb_current_zoom saved;
           pcb_current_pan := pcb_current_pan saved;
           pcb_old_zoom := pcb_old_zoom saved |} in
      match lastEmbed destroyed with
      | Some _ =>
          (* the embed is removed from its container; lastEmbed = null *)
          Done
            {| old_view := old_view destroyed;
               current_view := current_view destroyed;
               panZoom_instance := None;
               lastEmbed := None;
               sch_current_zoom := sch_current_zoom destroyed;
               sch_current_pan := sch_current_pan destroyed;
               sch_old_zoom := sch_old_zoom destroyed;
               pcb_current_zoom := pcb_current_zoom destroyed;
               pcb_current_pan := pcb_current_pan destroyed;
               pcb_old_zoom := pcb_old_zoom destroyed |}
      | None => TypeError destroyed   (* lastEmbed.removeEventListener *)
      end
  | None => Done s
  end.

(** [panZoom_instance.zoom(z); panZoom_instance.pan(p);] *)
Definition zoom_and_pan (z : option zoom) (p : option pan) (inst : instance)
  : instance :=
  {| getZoom := getZoom inst; getPan := getPan inst;
     received := received inst ++ [ZoomTo z; PanTo p] |}.

(** The [onUpdatedCTM] callback given to the library by [createNewEmbed]. *)
Definition onUpdatedCTM (s : state) : outcome state :=
  if bool_decide (current_view s = Some "show_sch") then
    if bool_decide (sch_current_zoom s ≠ sch_old_zoom s) then
      match panZoom_instance s with
      | Some inst =>
          Done
            {| old_view := old_view s; current_view := current_view s;
               panZoom_instance :=
                 Some (zoom_and_pan (sch_current_zoom s)
                         (sch_current_pan s) inst);
               lastEmbed := lastEmbed s;
               sch_current_zoom := sch_current_zoom s;
               sch_current_pan := sch_current_pan s;
               sch_old_zoom := sch_current_zoom s;
               pcb_current_zoom := pcb_current_zoom s;
               pcb_current_pan := pcb_current_pan s;
               pcb_old_zoom := pcb_old_zoom s |}
      | None => TypeError s
      end
    else Done s
  else
    if bool_decide (pcb_current_zoom s ≠ pcb_old_zoom s) then
      match panZoom_instance s with
      | Some inst =>
          Done
            {| old_view := old_view s; current_view := current_view s;
               panZoom_instance :=
                 Some (zoom_and_pan (pcb_current_zoom s)
                         (pcb_current_pan s) inst);
               lastEmbed := lastEmbed s;
               sch_current_zoom := sch_current_zoom s;
               sch_current_pan := sch_current_pan s;
               sch_old_zoom := sch_old_zoom s;
               pcb_current_zoom := pcb_current_zoom s;
               pcb_current_pan := pcb_current_pan s;
               pcb_old_zoom := pcb_current_zoom s |}
      | None => TypeError s
      end
    else Done s.

(** The two views that have a pan/zoom instance, and the three variables
    kept for each. *)
Inductive kind := Schematic | Layout.

Definition view_name (k : kind) : string :=
  match k with Schematic => "show_sch" | Layout => "show_pcb" end.

Definition other (k : kind) : kind :=
  match k with Schematic => Layout | Layout => Schematic end.

Definition current_zoom (k : kind) (s : state) : option zoom :=
  match k with
  | Schematic => sch_current_zoom s
  | Layout => pcb_current_zoom s
  end.

Definition current_pan (k : kind) (s : state) : option pan :=
  match k with
  | Schematic => sch_current_pan s
  | Layout => pcb_current_pan s
  end.

Definition old_zoom (k : kind) (s : state) : option zoom :=
  match k with
  | Schematic => sch_old_zoom s
  | Layout => pcb_old_zoom s
  end.

(** [onUpdatedCTM] serves the schematic when [current_view] is "show_sch"
    and the layout otherwise. *)
Definition callback_serves (k : kind) (s : state) : Prop :=
  match k with
  | Schematic => current_view s = Some "show_sch"
  | Layout => current_view s ≠ Some "show_sch"
  end.

(** The other functions of the script write the views, the instance and
    the embed ([show_sch], [update_commits], [createNewEmbed], ...), never
    the six saved variables. *)
Definition same_saved (s t : state) : Prop :=
  sch_current_zoom t = sch_current_zoom s ∧
  sch_current_pan t = sch_current_pan s ∧
  sch_old_zoom t = sch_old_zoom s ∧
  pcb_current_zoom t = pcb_current_zoom s ∧
  pcb_current_pan t = pcb_current_pan s ∧
  pcb_old_zoom t = pcb_old_zoom s.

(** What can happen between the moment view [k] is left and its next
    callback: a callback that serves the other view, a [removeEmbed] that
    is not a switch away from [k], and any step of the other functions. *)
Inductive elsewhere (k : kind) : state → state → Prop :=
  | elsewhere_callback s :
      ¬ callback_serves k s →
      elsewhere k s (state_of (onUpdatedCTM s))
  | elsewhere_remove s :
      current_view s ≠ Some (view_name (other k)) →
      elsewhere k s (state_of (removeEmbed s))
  | elsewhere_other s t :
      same_saved s t → elsewhere k s t.

End panzoom.

Arguments call : clear implicits.
Arguments instance : clear implicits.
Arguments state : clear implicits.

(** The schematic is left for the layout at zoom 3, and shown again later:
    the state in which [removeEmbed] runs, and the state in which the new
    instance of the schematic makes its first callback. *)
Definition example_leaving_sch : state Z (Z * Z) unit :=
  {| old_view := Some "show_sch";
     current_view := Some "show_pcb";
     panZoom_instance :=
       Some {| getZoom := 3; getPan := (10, -4); received := [] |};
     lastEmbed := Some tt;
     sch_current_zoom := None; sch_old_zoom := None; sch_current_pan := None;
     pcb_current_zoom := None; pcb_old_zoom := None; pcb_current_pan := None |}.

Definition example_layout_shown : state Z (Z * Z) unit :=
  {| old_view := Some "show_sch";
     current_view := Some "show_pcb";
     panZoom_instance :=
       Some {| getZoom := 2; getPan := (5, 5); received := [] |};
     lastEmbed := Some tt;
     sch_current_zoom := Some 3; sch_old_zoom := None;
     sch_current_pan := Some (10, -4);
     pcb_current_zoom := None; pcb_old_zoom := None; pcb_current_pan := None |}.

Definition example_leaving_pcb : state Z (Z * Z) unit :=
  {| old_view := Some "show_pcb";
     current_view := Some "show_sch";
     panZoom_instance :=
       Some {| getZoom := 2; getPan := (5, 5); received := [] |};
     lastEmbed := Some tt;
     sch_current_zoom := Some 3; sch_old_zoom := None;
     sch_current_pan := Some (10, -4);
     pcb_current_zoom := None; pcb_old_zoom := None; pcb_current_pan := None |}.

Definition example_back_in_sch : state Z (Z * Z) unit :=
  {| old_view := Some "show_pcb";
     current_view := Some "show_sch";
     panZoom_instance :=
       Some {| getZoom := 1; getPan := (0, 0); received := [] |};
     lastEmbed := Some tt;
     sch_current_zoom := Some 3; sch_old_zoom := None;
     sch_current_pan := Some (10, -4);
     pcb_current_zoom := Some 2; pcb_old_zoom := None;
     pcb_current_pan := Some (5, 5) |}.

Section embeds.

Context {zoom pan embed : Type}.

Definition set_embed (inst : option (instance zoom pan)) (e : option embed)
    (s : state zoom pan embed) : state zoom pan embed :=
  {| old_view := old_view s; current_view := current_view s;
     panZoom_instance := inst;
     lastEmbed := e;
     sch_current_zoom := sch_current_zoom s;
     sch_current_pan := sch_current_pan s;
     sch_old_zoom := sch_old_zoom s;
     pcb_current_zoom := pcb_current_zoom s;
     pcb_current_pan := pcb_current_pan s;
     pcb_old_zoom := pcb_old_zoom s |}.

(** [update_3d()] when the view has changed:
<<
    if (current_view != old_view) {
        removeEmbed();
        lastEmbed = createNewEmbed3d(model_1, model_2)
    }
>>
    [createNewEmbed3d] makes the element [e], appends it to the container
    and leaves no pan/zoom instance:
<<
    if (panZoom_instance) {
        panZoom_instance.destroy();
        panZoom_instance = null;
    }
    ...
    return embed;
>>
    With the view unchanged [update_3d] only writes attributes of the two
    models. *)
Definition update_3d (e : embed) (s : state zoom pan embed)
  : outcome (state zoom pan embed) :=
  if bool_decide (current_view s ≠ old_view s) then
    removeEmbed s >>> λ s, Done (set_embed None (Some e) s)
  else Done s.

End embeds.

(** The schematic, shown at zoom 3, is left for the 3D view. *)
Definition example_leaving_sch_for_3d : state Z (Z * Z) unit :=
  {| old_view := Some "show_sch";
     current_view := Some "show_3d";
     panZoom_instance :=
       Some {| getZoom := 3; getPan := (10, -4); received := [] |};
     lastEmbed := Some tt;
     sch_current_zoom := None; sch_old_zoom := None; sch_current_pan := None;
     pcb_current_zoom := None; pcb_old_zoom := None; pcb_current_pan := None |}.

End PanZoom.

(** ** The layer entries *)

Module Layers.

(** The string of [k] zeros. *)
Fixpoint zeros (k : nat) : string :=
  match k with
  | O => EmptyString
  | S k => String "0" (zeros k)
  end.

(** The loop of [pad], run for at most [fuel] rounds:
<<
    while (num.length < size) { num = "0" + num; }
>> *)
Fixpoint pad_loop (fuel : nat) (num : string) (size : Z) : string :=
  match fuel with
  | O => num
  | S fuel =>
      if bool_decide (Z.of_nat (String.length num) < size)
      then pad_loop fuel ("0" +:+ num) size
      else num
  end.

(** [pad(num, size)], [num] standing for the string [num.toString()]; the
    loop is given as many rounds as the string is short of [size]. *)
Definition pad (num : string) (size : Z) : string :=
  pad_loop (Z.to_nat (size - Z.of_nat (String.length num))) num size.

(** The layer numbers of KiCad named in [layer_color]. *)
Definition F_Cu : Z := 0.
Definition In1_Cu : Z := 1.
Definition In2_Cu : Z := 2.
Definition In3_Cu : Z := 3.
Definition In4_Cu : Z := 4.
Definition B_Cu : Z := 31.
Definition B_Adhes : Z := 32.
Definition F_Adhes : Z := 33.
Definition B_Paste : Z := 34.
Definition F_Paste : Z := 35.
Definition B_SilkS : Z := 36.
Definition F_SilkS : Z := 37.
Definition B_Mask : Z := 38.
Definition F_Mask : Z := 39.
Definition Dwgs_User : Z := 40.
Definition Cmts_User : Z := 41.
Definition Eco1_User : Z := 42.
Definition Eco2_User : Z := 43.
Definition Edge_Cuts : Z := 44.
Definition Margin : Z := 45.
Definition B_CrtYd : Z := 46.
Definition F_CrtYd : Z := 47.
Definition B_Fab : Z := 48.
Definition F_Fab : Z := 49.

(** A case label of the [switch]: [layer_id === c], which no value but
    the number [c] satisfies. *)
Definition is_case (layer_id : jsnum) (c : Z) : bool :=
  match layer_id with Num z => bool_decide (z = c) | _ => false end.

(** [layer_color(layer_id)]: the labels of the [switch] in their order,
    [layer_id] being the result of [parseInt], a number or NaN. *)
Definition layer_color (layer_id : jsnum) : string :=
  if is_case layer_id B_Adhes then "#3545A8"
  else if is_case layer_id B_CrtYd then "#D3D04B"
  else if is_case layer_id B_Cu then "#359632"
  else if is_case layer_id B_Fab then "#858585"
  else if is_case layer_id B_Mask then "#943197"
  else if is_case layer_id B_Paste then "#969696"
  else if is_case layer_id B_SilkS then "#481649"
  else if is_case layer_id Cmts_User then "#7AC0F4"
  else if is_case layer_id Dwgs_User then "#0364D3"
  else if is_case layer_id Eco1_User then "#008500"
  else if is_case layer_id Eco2_User then "#008500"
  else if is_case layer_id Edge_Cuts then "#C9C83B"
  else if is_case layer_id F_Adhes then "#A74AA8"
  else if is_case layer_id F_CrtYd then "#A7A7A7"
  else if is_case layer_id F_Cu then "#952927"
  else if is_case layer_id F_Fab then "#C2C200"
  else if is_case layer_id F_Mask then "#943197"
  else if is_case layer_id F_Paste then "#3DC9C9"
  else if is_case layer_id F_SilkS then "#339697"
  else if is_case layer_id In1_Cu then "#C2C200"
  else if is_case layer_id In2_Cu then "#C200C2"
  else if is_case layer_id In3_Cu then "#C20000"
  else if is_case layer_id In4_Cu then "#0000C2"
  else if is_case layer_id Margin then "#D357D2"
  else "#DBDBDB".

End Layers.

(** ** The server status *)

Module Server.

(** The two status variables, the [display] style of the [server_offline]
    element, and the lines that the two functions below write to the
    console. *)
Record state := {
  server_status : Z;
  old_server_status : Z;
  server_offline_display : string;
  console : list string;
}.

(** [var server_status = 1; var old_server_status = -1;], the element
    being displayed as the page says. *)
Definition initial (display : string) : state :=
  {| server_status := 1;
     old_server_status := -1;
     server_offline_display := display;
     console := [] |}.

(** The test and the log that end both functions:
<<
    if (server_status != old_server_status) {
        old_server_status = server_status;
        console.log(message);
    }
>> *)
Definition log_change (message : string) (s : state) : state :=
  if bool_decide (server_status s ≠ old_server_status s) then
    {| server_status := server_status s;
       old_server_status := server_status s;
       server_offline_display := server_offline_display s;
       console := console s ++ [message] |}
  else s.

Definition server_is_online (s : state) : state :=
  log_change "Server is Online"
    {| server_status := 1;
       old_server_status := old_server_status s;
       server_offline_display := "none";
       console := console s |}.

Definition server_is_offline (s : state) : state :=
  log_change "Server is Offline"
    {| server_status := 0;
       old_server_status := old_server_status s;
       server_offline_display := "block";
       console := console s |}.

(** What becomes of the image requested by [check_server_status]:
<<
    img.onload = function () { server_is_online(); };
    img.onerror = function () { server_is_offline(); };
>> *)
Inductive probe := Loaded | Failed.

#[global] Instance probe_eq_dec : EqDecision probe.
Proof. solve_decision. Defined.

Definition on_probe (p : probe) : state → state :=
  match p with Loaded => server_is_online | Failed => server_is_offline end.

Definition message (p : probe) : string :=
  match p with
  | Loaded => "Server is Online"
  | Failed => "Server is Offline"
  end.

(** The answers to the probes [ps], in their order. *)
Definition probes (ps : list probe) (s : state) : state :=
  foldl (λ s p, on_probe p s) s ps.

(** The probes that differ from the probe before them, [before] being
    the probe before the first of the list, if any. *)
Fixpoint changes (before : option probe) (ps : list probe) : list probe :=
  match ps with
  | [] => []
  | p :: rest =>
      if decide (before = Some p) then changes (Some p) rest
      else p :: changes (Some p) rest
  end.

End Server.

(** * Properties *)

(** ** The commit checkboxes *)

Section commits_facts.
Import Commits.
Implicit Types (l commits : list bool) (i j k z : Z) (m : nat).

Lemma elem_of_checked_from k l z :
  z ∈ checked_from k l ↔ ∃ m, z = k + Z.of_nat m ∧ l !! m = Some true.
Proof.
  revert k. induction l as [|c l IH]; intros k; simpl.
  - split; [by intros ?%elem_of_nil | by intros (m & _ & ?)].
  - split.
    + destruct c.
      * intros [->|Hin]%elem_of_cons.
        { exists 0%nat. split; [lia | done]. }
        apply IH in Hin as (m & -> & Hm). exists (S m). split; [lia | done].
      * intros Hin. apply IH in Hin as (m & -> & Hm).
        exists (S m). split; [lia | done].
    + intros ([|m] & -> & Hm); simpl in Hm.
      * injection Hm as ->. apply elem_of_cons. left. lia.
      * assert (k + Z.of_nat (S m) ∈ checked_from (k + 1) l) as Hin.
        { apply IH. exists m. split; [lia | done]. }
        destruct c; [apply elem_of_cons; by right | done].
Qed.

Lemma checked_from_sorted k l : StronglySorted Z.lt (checked_from k l).
Proof.
  revert k. induction l as [|c l IH]; intros k; simpl; [constructor|].
  destruct c; [|apply IH].
  constructor; [apply IH|].
  apply Forall_forall. intros z (m & -> & _)%elem_of_checked_from. lia.
Qed.

Lemma length_checked_from k l :
  Z.of_nat (length (checked_from k l)) = count_checked l.
Proof.
  unfold count_checked. revert k.
  induction l as [|c l IH]; intros k; simpl; [done|].
  destruct c.
  - rewrite filter_cons_True by done. simpl. specialize (IH (k + 1)). lia.
  - rewrite filter_cons_False by done. apply IH.
Qed.

Lemma selected_two l i j : selected_indices l = [i; j] ↔ two_checked l i j.
Proof.
  unfold selected_indices, two_checked, len. split.
  - intros Hsel.
    assert (∀ z, z = i ∨ z = j ↔
                 ∃ m, z = Z.of_nat m ∧ l !! m = Some true) as Hel.
    { intros z. rewrite <- (elem_of_checked_from 0 l z), Hsel.
      rewrite !elem_of_cons, elem_of_nil. tauto. }
    pose proof (checked_from_sorted 0 l) as Hs. rewrite Hsel in Hs.
    apply StronglySorted_inv in Hs as [_ Hlt].
    apply Forall_cons in Hlt as [Hlt _].
    destruct (proj1 (Hel i)) as (mi & -> & Hmi); [by left|].
    destruct (proj1 (Hel j)) as (mj & -> & Hmj); [by right|].
    pose proof (lookup_lt_Some _ _ _ Hmj).
    split; [lia|]. split; [lia|].
    intros m. split.
    + intros Hm. apply Hel. eauto.
    + intros [Hm|Hm]; [replace m with mi by lia | replace m with mj by lia];
        done.
  - intros (Hij & Hj & Hl).
    assert (∀ z, z ∈ checked_from 0 l ↔ z = i ∨ z = j) as Hel.
    { intros z. rewrite elem_of_checked_from. split.
      - intros (m & -> & Hm). by apply Hl.
      - intros Hz. exists (Z.to_nat z). split; [lia|]. apply Hl. lia. }
    pose proof (checked_from_sorted 0 l) as Hs.
    destruct (checked_from 0 l) as [|x [|y rest]].
    + exfalso. eapply (not_elem_of_nil i), Hel. by left.
    + exfalso.
      assert (i = x) by (apply list_elem_of_singleton, Hel; by left).
      assert (j = x) by (apply list_elem_of_singleton, Hel; by right).
      lia.
    + apply StronglySorted_inv in Hs as [Hs Hx].
      apply StronglySorted_inv in Hs as [_ Hy].
      apply Forall_cons in Hx as [Hxy Hx].
      assert (x = i ∨ x = j) as Hxi by (apply Hel; rewrite !elem_of_cons; auto).
      assert (y = i ∨ y = j) as Hyi by (apply Hel; rewrite !elem_of_cons; auto).
      assert (x = i ∧ y = j) as [-> ->] by lia.
      destruct rest as [|w rest]; [done|]. exfalso.
      apply Forall_cons in Hy as [Hw _].
      assert (w = i ∨ w = j) by (apply Hel; rewrite !elem_of_cons; auto). lia.
Qed.


Lemma two_checked_length l i j : two_checked l i j → 2 <= len l.
Proof. intros (? & ? & _). lia. Qed.

Lemma length_moved l i j i' j' : length (moved l i j i' j') = length l.
Proof. unfold moved. by rewrite !length_insert. Qed.

Lemma moved_two_checked l i j i' j' :
  two_checked l i j → 0 <= i' < j' → j' < len l →
  two_checked (moved l i j i' j') i' j'.
Proof.
  intros (Hij & Hj & Hl) Hij' Hj'. unfold len in *.
  split; [done|]. split; [unfold len; by rewrite length_moved|].
  intros m. unfold moved.
  destruct (decide (m < length l)%nat) as [Hm|Hm].
  - rewrite !list_lookup_insert by (rewrite ?length_insert; lia).
    specialize (Hl m).
    repeat case_decide; rewrite ?length_insert in *.
    all: split; intros Hx; try done; try lia.
    all: try (apply Hl in Hx; lia).
    all: apply Hl; lia.
  - rewrite lookup_ge_None_2 by (rewrite !length_insert; lia).
    split; [done | lia].
Qed.

Lemma update_selected_two l i j i' j' :
  two_checked l i j → 0 <= i' < j' → j' < len l →
  update_selected [Num i; Num j] [Num i'; Num j'] l
  = Done (moved l i j i' j').
Proof.
  intros (Hij & Hj & _) Hij' Hj'. unfold len in *.
  unfold update_selected, moved. simpl. unfold set_checked.
  rewrite decide_True by lia. simpl.
  rewrite decide_True by (rewrite length_insert; lia). simpl.
  rewrite decide_True by (rewrite !length_insert; lia). simpl.
  rewrite decide_True by (rewrite !length_insert; lia). done.
Qed.

Ltac nav_cases :=
  repeat first
    [ progress simpl
    | progress unfold js_ge, js_le, js_lt, js_gt, js_eq, js_set, js_get,
        js_add, js_sub
    | case_bool_decide ].

Lemma select_next_commit_two l i j :
  two_checked l i j →
  select_next_commit l
  = Done (moved l i j (Z.min (i + 1) (len l - 2)) (Z.min (j + 1) (len l - 1))).
Proof.
  intros Htwo. pose proof Htwo as (Hij & Hj & _).
  apply selected_two in Htwo as Hsel.
  unfold select_next_commit, selected_commits, shifted_commits.
  rewrite Hsel. nav_cases.
  all: rewrite update_selected_two by (done || lia).
  all: f_equal; f_equal; lia.
Qed.


Lemma select_next_2_commits_two l i j :
  two_checked l i j →
  select_next_2_commits l
  = Done (if bool_decide (j + 1 >= len l)
          then moved l i j (Z.min (i + 1) (len l - 2)) (len l - 1)
          else moved l i j i (j + 1)).
Proof.
  intros Htwo. pose proof Htwo as (Hij & Hj & _).
  apply selected_two in Htwo as Hsel.
  unfold select_next_2_commits, selected_commits, shifted_commits.
  rewrite Hsel. nav_cases.
  all: rewrite update_selected_two by (done || lia).
  all: f_equal; f_equal; lia.
Qed.

Lemma select_previows_commit_two l i j :
  two_checked l i j →
  select_previows_commit l
  = Done (moved l i j (Z.max (i - 1) 0) (Z.max (j - 1) 1)).
Proof.
  intros Htwo. pose proof Htwo as (Hij & Hj & _).
  apply selected_two in Htwo as Hsel.
  unfold select_previows_commit, selected_commits, shifted_commits.
  rewrite Hsel. nav_cases.
  all: rewrite update_selected_two by (done || lia).
  all: f_equal; f_equal; lia.
Qed.

Lemma select_previows_2_commits_two l i j :
  two_checked l i j →
  select_previows_2_commits l
  = Done (moved l i j (if bool_decide (j - 1 = i) then Z.max (i - 1) 0 else i)
                      (Z.max (j - 1) 1)).
Proof.
  intros Htwo. pose proof Htwo as (Hij & Hj & _).
  apply selected_two in Htwo as Hsel.
  unfold select_previows_2_commits, selected_commits, shifted_commits.
  rewrite Hsel. nav_cases.
  all: rewrite update_selected_two by (done || lia).
  all: f_equal; f_equal; lia.
Qed.

(** *** Counting the checked boxes *)

Lemma count_checked_nonneg l : 0 <= count_checked l.
Proof. unfold count_checked. lia. Qed.

Lemma count_checked_cons (c : bool) l :
  count_checked (c :: l) = (if c then 1 else 0) + count_checked l.
Proof.
  unfold count_checked. destruct c.
  - rewrite filter_cons_True by done. simpl. lia.
  - rewrite filter_cons_False by done. lia.
Qed.

Lemma count_checked_insert l m (c b : bool) :
  l !! m = Some c →
  count_checked (<[m := b]> l)
  = count_checked l - (if c then 1 else 0) + (if b then 1 else 0).
Proof.
  revert m. induction l as [|x l IH]; intros [|m] Hm; simpl in *; try done.
  - injection Hm as ->. rewrite !count_checked_cons. lia.
  - rewrite !count_checked_cons, (IH m Hm). lia.
Qed.

Lemma count_checked_insert_le l m (b : bool) :
  count_checked (<[m := b]> l) <= count_checked l + 1.
Proof.
  destruct (l !! m) as [c|] eqn:Hm.
  - rewrite (count_checked_insert _ _ _ _ Hm). destruct c, b; lia.
  - rewrite list_insert_ge by by apply lookup_ge_None. lia.
Qed.

Lemma count_checked_zero l :
  (∀ m, l !! m ≠ Some true) → count_checked l = 0.
Proof.
  intros Hl. rewrite <- (length_checked_from 0).
  destruct (checked_from 0 l) as [|z zs] eqn:Hz; [done|]. exfalso.
  assert (z ∈ checked_from 0 l) as Hin by (rewrite Hz; by left).
  apply elem_of_checked_from in Hin as (m & _ & Hm). by apply (Hl m).
Qed.

Lemma count_set_checked b v l :
  count_checked (state_of (set_checked b v l)) <= count_checked l + 1.
Proof.
  unfold set_checked. destruct v; simpl; try lia.
  case_decide; simpl; [apply count_checked_insert_le | lia].
Qed.

Lemma count_set_all b a idxs l :
  count_checked (state_of (set_all b a idxs l))
  <= count_checked l + Z.of_nat (length idxs).
Proof.
  revert l. induction idxs as [|x idxs IH]; intros l; simpl; [lia|].
  pose proof (count_set_checked b (js_get a x) l) as Hx.
  destruct (set_checked b (js_get a x) l) as [l'|l']; simpl in *.
  - specialize (IH l'). lia.
  - lia.
Qed.

Lemma length_uncheck_all zs l : length (uncheck_all zs l) = length l.
Proof.
  revert l. induction zs as [|z zs IH]; intros l; simpl; [done|].
  unfold uncheck_all in *. simpl. by rewrite IH, length_insert.
Qed.

Lemma lookup_uncheck_all zs l m :
  Forall (λ z, 0 <= z < len l) zs →
  uncheck_all zs l !! m = Some true →
  l !! m = Some true ∧ Z.of_nat m ∉ zs.
Proof.
  unfold uncheck_all, len. revert l.
  induction zs as [|z zs IH]; intros l Hzs Hm; simpl in *.
  - split; [done | apply not_elem_of_nil].
  - apply Forall_cons in Hzs as [Hz Hzs].
    apply IH in Hm as [Hm Hnin].
    + apply list_lookup_insert_Some in Hm as [(_ & ? & _)|[Hne Hm]]; [done|].
      split; [done|]. rewrite elem_of_cons. intros [Heq|?]; [|done].
      apply Hne. lia.
    + rewrite length_insert. done.
Qed.

Lemma set_all_false_from pre zs l :
  Forall (λ z, 0 <= z < len l) zs →
  set_all false (pre ++ (Num <$> zs)) (seq (length pre) (length zs)) l
  = Done (uncheck_all zs l).
Proof.
  unfold uncheck_all, len. revert pre l.
  induction zs as [|z zs IH]; intros pre l Hzs; simpl; [done|].
  apply Forall_cons in Hzs as [Hz Hzs].
  unfold js_get. rewrite lookup_app_r, Nat.sub_diag by done. simpl.
  rewrite decide_True by done. simpl.
  specialize (IH (pre ++ [Num z]) (<[Z.to_nat z := false]> l)).
  rewrite <- app_assoc, length_app in IH. simpl in IH.
  rewrite Nat.add_1_r in IH. apply IH.
  by rewrite length_insert.
Qed.

Lemma selected_indices_range l :
  Forall (λ z, 0 <= z < len l) (selected_indices l).
Proof.
  apply Forall_forall. intros z (m & -> & Hm)%elem_of_checked_from.
  apply lookup_lt_Some in Hm. unfold len. lia.
Qed.

Lemma update_selected_count next l :
  count_checked (state_of (update_selected (selected_commits l) next l))
  <= count_checked l.
Proof.
  unfold update_selected, selected_commits.
  rewrite length_fmap.
  pose proof (set_all_false_from [] (selected_indices l) l
    (selected_indices_range l)) as Hf.
  simpl in Hf. rewrite Hf. simpl.
  pose proof (count_set_all true next
    (seq 0 (length (selected_indices l)))
    (uncheck_all (selected_indices l) l)) as Hc.
  rewrite length_seq in Hc.
  assert (count_checked (uncheck_all (selected_indices l) l) = 0) as Hz.
  { apply count_checked_zero. intros m Hm.
    apply lookup_uncheck_all in Hm as [Hm Hnin];
      [|apply selected_indices_range].
    apply Hnin, elem_of_checked_from. exists m. split; [lia | done]. }
  pose proof (length_checked_from 0 l) as Hlen.
  unfold selected_indices in *. lia.
Qed.

Lemma moved_selected l i j i' j' :
  two_checked l i j → 0 <= i' < j' → j' < len l →
  selected_indices (moved l i j i' j') = [i'; j'].
Proof. intros. by apply selected_two, moved_two_checked. Qed.

(** C1. With exactly the boxes [i < j] of [n] boxes checked,
    [select_next_commit] unchecks both and checks the boxes
    [min (i + 1) (n - 2)] and [min (j + 1) (n - 1)]: both selections move
    one box down, the second stopping at the last box and the first at the
    one before it. The box list it returns has exactly those two boxes
    checked. *)
Theorem select_next_commit_advances_both (commits : list bool) (i j : Z) :
  selected_indices commits = [i; j] →
  let n := len commits in
  let i' := Z.min (i + 1) (n - 2) in
  let j' := Z.min (j + 1) (n - 1) in
  2 <= n ∧ i < j ∧
  select_next_commit commits = Done (moved commits i j i' j') ∧
  selected_indices (moved commits i j i' j') = [i'; j'].
Proof.
  intros Hsel%selected_two n i' j'.
  pose proof Hsel as (Hij & Hj & _). fold n in Hj.
  split; [lia|]. split; [lia|]. split.
  - by apply select_next_commit_two.
  - apply moved_selected; [done | lia | fold n; lia].
Qed.

Lemma select_next_commit_advances_both_witness :
  selected_indices [true; false; true; false; false] = [0; 2] ∧
  select_next_commit [true; false; true; false; false]
  = Done [false; true; false; true; false].
Proof.
  split; [reflexivity|].
  exact (proj1 (proj2 (proj2
    (select_next_commit_advances_both
       [true; false; true; false; false] 0 2 eq_refl)))).
Defined.

(** C2. With exactly the boxes [i < j] of [n] boxes checked,
    [select_next_2_commits] moves the second selection to [j + 1] and
    leaves the first at [i]; when [j + 1] would pass the end, the second
    selection is the last box and the first moves to [i + 1], or stays on
    the box before the last when it is already there. In both cases the
    first box checked is strictly before the second and is at most
    [n - 2]. *)
Theorem select_next_2_commits_advances_second
    (commits : list bool) (i j : Z) :
  selected_indices commits = [i; j] →
  let n := len commits in
  let i' := if bool_decide (j + 1 >= n) then Z.min (i + 1) (n - 2) else i in
  let j' := if bool_decide (j + 1 >= n) then n - 1 else j + 1 in
  select_next_2_commits commits = Done (moved commits i j i' j') ∧
  selected_indices (moved commits i j i' j') = [i'; j'] ∧
  i' < j' ∧ i' <= n - 2.
Proof.
  intros Hsel%selected_two n i' j'.
  pose proof Hsel as (Hij & Hj & _). fold n in Hj.
  assert (0 <= i' < j' ∧ j' < n ∧ i' <= n - 2) as (Hi' & Hj' & Hn).
  { unfold i', j'. case_bool_decide; lia. }
  split; [|split; [by apply moved_selected | lia]].
  rewrite (select_next_2_commits_two commits i j Hsel).
  unfold i', j'. fold n. by case_bool_decide.
Qed.

Lemma select_next_2_commits_advances_second_witness :
  selected_indices [false; true; false; false; true] = [1; 4] ∧
  select_next_2_commits [false; true; false; false; true]
  = Done [false; false; true; false; true].
Proof.
  split; [reflexivity|].
  exact (proj1
    (select_next_2_commits_advances_second
       [false; true; false; false; true] 1 4 eq_refl)).
Defined.

(** C8. Each of the four navigation functions keeps the selection well
    formed: from a list of [n >= 2] boxes with exactly the boxes [i < j]
    checked, it returns (without throwing) a list of the same length with
    exactly two boxes [i' < j'] checked, [0 <= i'] and [j' <= n - 1]. *)
Theorem navigation_keeps_two_selected
    (op : navigation) (commits : list bool) (i j : Z) :
  2 <= len commits →
  i < j →
  selected_indices commits = [i; j] →
  ∃ commits' i' j',
    navigate op commits = Done commits' ∧
    length commits' = length commits ∧
    selected_indices commits' = [i'; j'] ∧
    0 <= i' < j' ∧ j' <= len commits - 1.
Proof.
  intros _ _ Hsel%selected_two.
  pose proof Hsel as (Hij & Hj & _).
  assert (∀ i' j', 0 <= i' < j' → j' < len commits →
            ∃ commits' i'' j'',
              Done (moved commits i j i' j') = Done commits' ∧
              length commits' = length commits ∧
              selected_indices commits' = [i''; j''] ∧
              0 <= i'' < j'' ∧ j'' <= len commits - 1) as Hgoal.
  { intros i' j' Hi' Hj'.
    exists (moved commits i j i' j'), i', j'.
    split; [done|]. split; [apply length_moved|].
    split; [by apply moved_selected | lia]. }
  destruct op; simpl.
  - rewrite (select_next_2_commits_two commits i j Hsel).
    case_bool_decide; apply Hgoal; lia.
  - rewrite (select_next_commit_two commits i j Hsel). apply Hgoal; lia.
  - rewrite (select_previows_2_commits_two commits i j Hsel).
    apply Hgoal; try case_bool_decide; lia.
  - rewrite (select_previows_commit_two commits i j Hsel). apply Hgoal; lia.
Qed.

Lemma navigation_keeps_two_selected_witness :
  ∃ commits' i' j',
    navigate Previows2 [false; true; true] = Done commits' ∧
    length commits' = length [false; true; true] ∧
    selected_indices commits' = [i'; j'] ∧
    0 <= i' < j' ∧ j' <= len [false; true; true] - 1.
Proof.
  apply (navigation_keeps_two_selected Previows2 [false; true; true] 1 2).
  - vm_compute. discriminate.
  - lia.
  - reflexivity.
Defined.

Lemma user_click_count (k : nat) l :
  count_checked l <= 2 → count_checked (user_click k l) <= 2.
Proof.
  intros Hl. unfold user_click.
  destruct (l !! k) as [c|] eqn:Hk; [|done].
  unfold on_change.
  pose proof (count_checked_insert l k c (negb c) Hk) as Hc.
  case_bool_decide as Hgt; [|lia].
  assert ((<[k := negb c]> l) !! k = Some (negb c)) as Hk'.
  { apply list_lookup_insert_eq. by eapply lookup_lt_Some. }
  rewrite (count_checked_insert _ _ _ false Hk').
  destruct c; simpl in *; lia.
Qed.

Lemma navigate_count op l :
  count_checked (state_of (navigate op l)) <= count_checked l.
Proof. destruct op; apply update_selected_count. Qed.

Lemma count_checked_replicate_false n :
  count_checked (replicate n false) = 0.
Proof.
  apply count_checked_zero. intros m Hm.
  apply lookup_replicate in Hm as [? _]. done.
Qed.

Lemma reset_count l :
  count_checked (state_of (reset_commits_selection l)) <= 2.
Proof.
  unfold reset_commits_selection.
  pose proof (count_checked_replicate_false (length l)) as H0.
  pose proof (count_set_checked true (Num 0) (replicate (length l) false)) as H1.
  destruct (set_checked true (Num 0) (replicate (length l) false))
    as [l1|l1]; cbn [bind state_of] in *; [|lia].
  pose proof (count_set_checked true (Num 1) l1). lia.
Qed.

Lemma step_count l l' :
  step l l' → count_checked l <= 2 → count_checked l' <= 2.
Proof.
  intros [k c|op c|c] Hc.
  - by apply user_click_count.
  - pose proof (navigate_count op c). lia.
  - apply reset_count.
Qed.

(** C6. At most two commit boxes are ever checked. When a change leaves
    more than two boxes checked, the handler unchecks the box [k] that was
    changed and no other; and from a form with at most two boxes checked,
    every form reached by clicks, navigation keys and resets has at most
    two boxes checked. *)
Theorem at_most_two_commits_checked (init commits : list bool) :
  count_checked init <= 2 →
  rtc step init commits →
  count_checked commits <= 2 ∧
  ∀ (k : nat) (l : list bool),
    count_checked l > 2 → on_change k l = <[k := false]> l.
Proof.
  intros Hinit Hreach. split.
  - induction Hreach as [|x y z Hstep _ IH]; [done|].
    apply IH. by eapply step_count.
  - intros k l Hl. unfold on_change. by rewrite bool_decide_true.
Qed.

Lemma at_most_two_commits_checked_witness :
  count_checked (user_click 2 (user_click 0 [false; true; false])) <= 2 ∧
  ∀ (k : nat) (l : list bool),
    count_checked l > 2 → on_change k l = <[k := false]> l.
Proof.
  apply (at_most_two_commits_checked [false; true; false]).
  - vm_compute. discriminate.
  - eapply rtc_l; [apply step_click|].
    eapply rtc_l; [apply step_click|]. apply rtc_refl.
Defined.

End commits_facts.

(** ** Clicking a commit of the graph *)

Section graph_facts.
Import Graph.
Implicit Types (cs : list commit) (v : jsstr) (x : string).

Lemma find_indices_last_index v v1 v2 cs i a b c :
  find_indices v v1 v2 cs i (a, b, c)
  = (last_index v cs i a, last_index v1 cs i b, last_index v2 cs i c).
Proof.
  revert i a b c. induction cs as [|c0 cs IH]; intros i a b c; simpl; [done|].
  apply IH.
Qed.

Lemma last_index_absent x cs i a :
  x ∉ hash <$> cs → last_index (Some x) cs i a = a.
Proof.
  revert i a. induction cs as [|c cs IH]; intros i a Hx; simpl; [done|].
  rewrite fmap_cons, not_elem_of_cons in Hx. destruct Hx as [Hne Hx].
  unfold hash_is. rewrite bool_decide_false by congruence. by apply IH.
Qed.

Lemma last_index_unique x cs (k : nat) i a :
  NoDup (hash <$> cs) →
  hash <$> cs !! k = Some x →
  last_index (Some x) cs i a = i + Z.of_nat k.
Proof.
  revert k i a. induction cs as [|c cs IH]; intros k i a Hnd Hk; [done|].
  rewrite fmap_cons in Hnd. apply NoDup_cons in Hnd as [Hc Hnd].
  destruct k as [|k]; simpl in *.
  - injection Hk as <-. unfold hash_is. rewrite bool_decide_true by done.
    rewrite last_index_absent by done. lia.
  - unfold hash_is. rewrite bool_decide_false.
    + rewrite (IH k) by done. lia.
    + intros [= Heq]. apply Hc. rewrite Heq.
      apply list_elem_of_lookup. exists k. by rewrite list_lookup_fmap.
Qed.

(** C5. In a graph whose hashes are distinct, let [h], [c1] and [c2] be
    the indices of the clicked commit, of [commit1] and of [commit2].
    [commit_click] puts the clicked hash in [commit2] when [h <= c2];
    otherwise in [commit1] when [h >= c1]; otherwise, [h] lying strictly
    between [c2] and [c1], in the one whose index is nearer to [h], and in
    [commit1] when both are as near. The other variable keeps its value. *)
Theorem commit_click_replaces_nearest
    (s : state) (x x1 x2 : string) (h c1 c2 : nat) :
  NoDup (hash <$> commits s) →
  hash <$> commits s !! h = Some x →
  commit1 s = Some x1 → hash <$> commits s !! c1 = Some x1 →
  commit2 s = Some x2 → hash <$> commits s !! c2 = Some x2 →
  let s' := commit_click (Some x) s in
  let replaces_commit2 := commit2 s' = Some x ∧ commit1 s' = commit1 s in
  let replaces_commit1 := commit1 s' = Some x ∧ commit2 s' = commit2 s in
  let d1 := Z.abs (Z.of_nat h - Z.of_nat c1) in
  let d2 := Z.abs (Z.of_nat h - Z.of_nat c2) in
  ((h ≤ c2)%nat → replaces_commit2) ∧
  ((c2 < h)%nat → (c1 ≤ h)%nat → replaces_commit1) ∧
  ((c2 < h < c1)%nat → d2 < d1 → replaces_commit2) ∧
  ((c2 < h < c1)%nat → d1 <= d2 → replaces_commit1).
Proof.
  intros Hnd Hh H1 Hc1 H2 Hc2. simpl.
  unfold commit_click. rewrite find_indices_last_index, H1, H2.
  rewrite (last_index_unique x _ h), (last_index_unique x1 _ c1),
    (last_index_unique x2 _ c2) by done.
  repeat case_bool_decide; simpl; rewrite ?H1, ?H2;
    repeat split; intros; try done; lia.
Qed.

Lemma commit_click_replaces_nearest_witness :
  commit1 (commit_click (Some "d4") example_graph) = Some "d4" ∧
  commit2 (commit_click (Some "d4") example_graph) = Some "b2".
Proof.
  refine (proj2 (proj2 (proj2
    (commit_click_replaces_nearest example_graph "d4" "e5" "b2" 3 4 1
       _ eq_refl eq_refl eq_refl eq_refl eq_refl))) _ _).
  - apply (bool_decide_unpack _). vm_compute. exact I.
  - lia.
  - vm_compute. discriminate.
Defined.

End graph_facts.

(** ** Probing a URL *)

Section http_facts.
Import Http.
Local Open Scope N_scope.

Lemma digit_char_inj d1 d2 :
  d1 < 10 → d2 < 10 → digit_char d1 = digit_char d2 → d1 = d2.
Proof.
  intros H1 H2 Heq. unfold digit_char in Heq.
  apply (f_equal N_of_ascii) in Heq.
  rewrite !N_ascii_embedding in Heq by lia. lia.
Qed.

(** The first character written by [to_digits] is the leading decimal
    digit of [n]. *)
Lemma to_digits_leading fuel n acc :
  n < 2 ^ N.of_nat fuel → (1 ≤ fuel)%nat →
  ∃ d k rest,
    to_digits fuel n acc = String (digit_char d) rest ∧
    d < 10 ∧ d * 10 ^ k <= n < (d + 1) * 10 ^ k ∧ (0 < n → 0 < d).
Proof.
  revert n acc. induction fuel as [|fuel IH]; intros n acc Hn Hfuel; [lia|].
  simpl.
  assert (∃ q r, n / 10 = q ∧ n mod 10 = r ∧ n = 10 * q + r ∧ r < 10)
    as (q & r & -> & -> & Hdm & Hr).
  { eexists _, _. split; [done|]. split; [done|].
    split; [apply N.div_mod' | apply N.mod_lt; lia]. }
  destruct (N.eqb_spec q 0) as [Hq|Hq].
  - exists r, 0, acc. rewrite N.pow_0_r. repeat split; lia.
  - rewrite Nat2N.inj_succ, N.pow_succ_r' in Hn.
    destruct (IH q (String (digit_char r) acc))
      as (d & k & rest & -> & Hd & Hk & Hpos).
    + revert Hn. generalize (2 ^ N.of_nat fuel). intros P HP. lia.
    + destruct fuel; [simpl in Hn; lia | lia].
    + exists d, (k + 1), rest. rewrite N.pow_add_r, N.pow_1_r.
      split; [done|]. split; [done|]. split; [nia | lia].
Qed.

Lemma pos_size_nat_bound p : N.pos p < 2 ^ N.of_nat (Pos.size_nat p).
Proof.
  induction p as [p IH|p IH|]; simpl Pos.size_nat;
    rewrite ?Nat2N.inj_succ, ?N.pow_succ_r'; [| |done].
  all: revert IH; generalize (2 ^ N.of_nat (Pos.size_nat p)); intros P IH; lia.
Qed.

Lemma size_nat_bound n : n < 2 ^ N.of_nat (S (N.size_nat n)).
Proof.
  rewrite Nat2N.inj_succ, N.pow_succ_r'.
  destruct n as [|p]; [done|]. simpl N.size_nat.
  pose proof (pos_size_nat_bound p) as Hp. revert Hp.
  generalize (2 ^ N.of_nat (Pos.size_nat p)). intros P HP. lia.
Qed.

Lemma toString_leading n :
  ∃ d k rest,
    toString n = String (digit_char d) rest ∧
    d < 10 ∧ d * 10 ^ k <= n < (d + 1) * 10 ^ k ∧ (0 < n → 0 < d).
Proof. apply to_digits_leading; [apply size_nat_bound | lia]. Qed.

Lemma leading_digit_unique n d k d' k' :
  0 < d → d < 10 → 0 < d' → d' < 10 →
  d * 10 ^ k <= n < (d + 1) * 10 ^ k →
  d' * 10 ^ k' <= n < (d' + 1) * 10 ^ k' →
  d = d' ∧ k = k'.
Proof.
  assert (∀ a b, a < b → 10 * 10 ^ a <= 10 ^ b) as Hpow.
  { intros a b Hab. rewrite <- N.pow_succ_r'.
    apply N.pow_le_mono_r; lia. }
  intros Hd Hd10 Hd' Hd10' Hk Hk'.
  assert (0 < 10 ^ k) by (apply N.neq_0_lt_0, N.pow_nonzero; lia).
  assert (0 < 10 ^ k') by (apply N.neq_0_lt_0, N.pow_nonzero; lia).
  destruct (N.lt_trichotomy k k') as [Hlt|[->|Hlt]].
  - specialize (Hpow _ _ Hlt). nia.
  - split; [nia | done].
  - specialize (Hpow _ _ Hlt). nia.
Qed.

(** C4. On the first progress event of its request, [if_url_exists] aborts
    the request and calls the callback once, with a boolean that depends
    on the status alone: [true] exactly when the first character of the
    decimal status is '2', that is when the status lies in
    [2 * 10^k, 3 * 10^k) for some [k]; for an HTTP status (100 to 599)
    that is exactly the 2xx range, every other status giving [false]. *)
Theorem if_url_exists_true_iff_2xx (status : N) (later : list N) :
  ∃ b : bool,
    if_url_exists (status :: later) = [Abort; Callback b] ∧
    onprogress status = [Abort; Callback b] ∧
    (b = true ↔ first_char (toString status) = Some "2"%char) ∧
    (b = true ↔ ∃ k, 2 * 10 ^ k <= status < 3 * 10 ^ k) ∧
    (100 <= status <= 599 → (b = true ↔ 200 <= status <= 299)).
Proof.
  assert (first_char (toString status) = Some "2"%char
          ↔ ∃ k, 2 * 10 ^ k <= status < 3 * 10 ^ k) as Hiff.
  { destruct (toString_leading status) as (d & k & rest & -> & Hd & Hk & Hpos).
    simpl. split.
    - intros [= Heq]. apply (digit_char_inj d 2) in Heq as ->; [|done|done].
      by exists k.
    - intros (k' & Hk').
      assert (0 < 10 ^ k') by (apply N.neq_0_lt_0, N.pow_nonzero; lia).
      destruct (leading_digit_unique status d k 2 k') as [-> _];
        try done; lia. }
  assert (100 <= status <= 599 →
          (∃ k, 2 * 10 ^ k <= status < 3 * 10 ^ k) ↔ 200 <= status <= 299)
    as Hrange.
  { intros Hs. split.
    - intros (k & Hk).
      assert (∃ q r, status = 100 * q + r ∧ r < 100) as (q & r & Hqr & Hr).
      { exists (status / 100), (status mod 100).
        split; [apply N.div_mod' | apply N.mod_lt; lia]. }
      destruct (leading_digit_unique status 2 k q 2) as [<- ->];
        try done; try lia.
      all: change (10 ^ 2) with 100; lia.
    - intros Hs'. exists 2. change (10 ^ 2) with 100. lia. }
  unfold if_url_exists, onprogress. case_bool_decide as Hfirst.
  - exists true. do 3 (split; [done|]). split.
    + split; [intros _; by apply Hiff | done].
    + intros Hs. split; [intros _; by apply Hrange, Hiff | done].
  - exists false. do 3 (split; [done|]). split.
    + split; [done | intros Hk; by apply Hiff in Hk].
    + intros Hs. split; [done | intros Hk; by apply Hrange, Hiff in Hk].
Qed.

End http_facts.

(** ** The list of schematic sheets *)

Section sheets_facts.
Import Sheets.
Implicit Types (l acc data : list string) (x d : string).






(** *** Sets as arrays *)

Lemma first_occurrences_elem_of l x : x ∈ first_occurrences l ↔ x ∈ l.
Proof.
  induction l as [|y l IH]; simpl; [done|].
  rewrite !elem_of_cons, list_elem_of_filter, IH.
  destruct (decide (x = y)); intuition congruence.
Qed.












Lemma fmap_id_check_only k (rs : list Pages.radio) :
  Pages.id <$> Pages.check_only k rs = Pages.id <$> rs.
Proof.
  unfold Pages.check_only. apply list_eq. intros i.
  rewrite !list_lookup_fmap, list_lookup_imap.
  by destruct (rs !! i).
Qed.

Lemma fmap_id_check_value v (rs : list Pages.radio) :
  Pages.id <$> Pages.check_value v rs = Pages.id <$> rs.
Proof.
  unfold Pages.check_value.
  generalize (filter (λ k, Pages.id <$> rs !! k = Some v)
                (seq 0 (length rs))).
  intros ks. revert rs. induction ks as [|k ks IH]; intros rs; simpl; [done|].
  by rewrite IH, fmap_id_check_only.
Qed.

Lemma fmap_id_fresh (sheets : list string) :
  Pages.id <$> ((λ sheet, {| Pages.id := sheet; Pages.checked := false |})
                  <$> sheets) = sheets.
Proof. rewrite <- list_fmap_compose. apply list_fmap_id. Qed.

Lemma update_sheets_list_cases (srv : Pages.server) (s : Pages.state)
    (text1 text2 : string) :
  loadFile (Pages.sch_sheets1 srv) = Some text1 →
  loadFile (Pages.sch_sheets2 srv) = Some text2 →
  let sheets := sheets_of (lines text1) (lines text2) in
  let current := Pages.id <$> Pages.pages s in
  (toString current = toString sheets →
     ∃ s1, Pages.update_sheets_list srv s = Done s1 ∧ Pages.same_but_sheet s s1) ∧
  (toString current ≠ toString sheets → sheets ≠ [] →
     Pages.id <$> Pages.pages (state_of (Pages.update_sheets_list srv s))
     = sheets).
Proof.
  intros H1 H2 sheets current. unfold Pages.update_sheets_list.
  rewrite H1, H2. fold sheets current.
  set (s1 := match Pages.pages s !! _ with Some _ => _ | None => _ end).
  assert (Pages.same_but_sheet s s1) as Hs1.
  { unfold s1. repeat case_match; by repeat split. }
  clearbody s1. split.
  - intros Heq. rewrite bool_decide_true by done. eauto.
  - intros Hne Hsheets. rewrite bool_decide_false by done.
    destruct sheets as [|sheet sheets0] eqn:Es; [done|].
    etrans; [|apply (fmap_id_fresh (sheet :: sheets0))].
    destruct (match Pages.selected_sheet s1 with
              | Some v => bool_decide (v ∈ current)
              | None => false
              end).
    + simpl state_of. simpl Pages.pages. apply fmap_id_check_value.
    + by destruct (Pages.pages s).
Qed.



End sheets_facts.

(** ** Switching between the schematic, the layout and the 3D view *)

Section view_facts.
Import View.

Lemma show_sch_exclusive s :
  current_view (show_sch s) = Some "show_sch" ∧
  only_checked Sch (show_sch s) ∧
  old_view (show_sch s) = current_view s.
Proof. split; [done|]. split; [by intros []|done]. Qed.

Lemma update_layer_with_layers s :
  layers s ≠ [] →
  current_view (update_layer s) = current_view s ∧
  old_view (update_layer s) = old_view s ∧
  ∀ m, is_checked m (update_layer s) = is_checked m s.
Proof.
  intros Hl. unfold update_layer. case_bool_decide; [done|].
  destruct (layers s); [done|]. split; [done|]. split; [done|]. by intros [].
Qed.

(** C9, as the specification states it, does not hold: in a project
    without layout [show_pcb] hands over to [show_sch], and [old_view]
    then is "show_pcb", not the view the script was in before the call. *)
Lemma show_pcb_without_layout_counterexample :
  ¬ exclusive_after Pcb example_no_layout.
Proof. intros [_ Hold]. vm_compute in Hold. discriminate. Qed.

(** C9, amended. After [show_sch], [show_pcb] or [show_3d] exactly one of
    the three inputs is checked, the one named by the new [current_view].
    [current_view] is the view asked for and [old_view] the [current_view]
    of before the call, except when [show_pcb] finds no layer radio: then
    [update_layer] calls [show_sch], [current_view] is "show_sch" and
    [old_view] is "show_pcb". *)
Theorem show_view_exclusive (m : mode) (s : state) :
  let s' := show m s in
  let fallback := bool_decide (m = Pcb ∧ layers s = []) in
  let shown := if fallback then Sch else m in
  current_view s' = Some (name shown) ∧
  only_checked shown s' ∧
  old_view s' = (if fallback then Some "show_pcb" else current_view s).
Proof.
  intros s' fallback shown.
  destruct m.
  - assert (fallback = false) as Hf
      by (apply bool_decide_eq_false; by intros [? _]).
    unfold shown. rewrite Hf. apply show_sch_exclusive.
  - destruct (layers s) as [|l ls] eqn:Hl.
    + assert (fallback = true) as Hf
        by (by apply bool_decide_eq_true).
      unfold shown. rewrite Hf.
      unfold s', show, show_pcb, update_layer. simpl. rewrite Hl. simpl.
      split; [done|]. split; [by intros []|done].
    + assert (fallback = false) as Hf
        by (apply bool_decide_eq_false; by intros [_ ?]).
      unfold shown. rewrite Hf. unfold s', show, show_pcb.
      match goal with |- context [update_layer ?t] =>
        destruct (update_layer_with_layers t) as (Hc & Ho & Hk) end.
      { simpl. by rewrite Hl. }
      rewrite Hc, Ho. split; [done|]. split; [|done].
      intros m'. rewrite Hk. by destruct m'.
  - assert (fallback = false) as Hf
      by (apply bool_decide_eq_false; by intros [? _]).
    unfold shown. rewrite Hf.
    split; [done|]. split; [by intros []|done].
Qed.

End view_facts.

(** ** Keeping pan and zoom across a change of view *)

Section panzoom_facts.
Import PanZoom.
Context {zoom pan embed : Type} `{EqDecision zoom}.
Implicit Types (s t : state zoom pan embed) (inst : instance zoom pan).
Implicit Types (k : kind).

Lemma removeEmbed_saves k s inst :
  panZoom_instance s = Some inst →
  old_view s ≠ Some "show_3d" →
  current_view s = Some (view_name (other k)) →
  let s' := state_of (removeEmbed s) in
  current_zoom k s' = Some (getZoom inst) ∧
  current_pan k s' = Some (getPan inst) ∧
  old_zoom k s' = None ∧
  current_zoom (other k) s' = current_zoom (other k) s ∧
  current_pan (other k) s' = current_pan (other k) s ∧
  old_zoom (other k) s' = old_zoom (other k) s.
Proof.
  intros Hinst Hold Hcur. unfold removeEmbed. rewrite Hinst.
  rewrite (bool_decide_true _ Hold), Hcur.
  destruct k, (lastEmbed s); simpl; by repeat split.
Qed.

Lemma elsewhere_keeps k s t :
  elsewhere k s t →
  current_zoom k t = current_zoom k s ∧
  current_pan k t = current_pan k s ∧
  old_zoom k t = old_zoom k s.
Proof.
  intros [s0 Hserve|s0 Hview|s0 t0 Hsame].
  - unfold onUpdatedCTM.
    destruct k; simpl in Hserve.
    + rewrite bool_decide_false by done.
      repeat case_match; by repeat split.
    + apply dec_stable in Hserve. rewrite bool_decide_true by done.
      repeat case_match; by repeat split.
  - unfold removeEmbed.
    destruct (panZoom_instance s0); [|done].
    destruct k; simpl in Hview;
      repeat (case_bool_decide || case_match); simpl; try done.
  - destruct Hsame as (? & ? & ? & ? & ? & ?). by destruct k.
Qed.

Lemma elsewhere_rtc_keeps k s t :
  rtc (elsewhere k) s t →
  current_zoom k t = current_zoom k s ∧
  current_pan k t = current_pan k s ∧
  old_zoom k t = old_zoom k s.
Proof.
  induction 1 as [|s1 s2 s3 Hstep _ (IH1 & IH2 & IH3)]; [done|].
  apply elsewhere_keeps in Hstep as (H1 & H2 & H3).
  by rewrite IH1, IH2, IH3.
Qed.

Lemma onUpdatedCTM_restores k t inst z p :
  callback_serves k t →
  panZoom_instance t = Some inst →
  current_zoom k t = Some z →
  current_pan k t = Some p →
  old_zoom k t = None →
  ∃ t',
    onUpdatedCTM t = Done t' ∧
    panZoom_instance t' = Some (zoom_and_pan (Some z) (Some p) inst) ∧
    old_zoom k t' = Some z ∧
    current_zoom k t' = Some z ∧
    current_pan k t' = Some p.
Proof.
  intros Hserve Hinst Hz Hp Ho. unfold onUpdatedCTM.
  destruct k; simpl in *.
  - rewrite bool_decide_true by done.
    rewrite bool_decide_true by (by rewrite Hz, Ho).
    rewrite Hinst, Hz, Hp. eexists. by repeat split.
  - rewrite bool_decide_false by done.
    rewrite bool_decide_true by (by rewrite Hz, Ho).
    rewrite Hinst, Hz, Hp. eexists. by repeat split.
Qed.

(** C7. In a switch between the schematic and the layout, [k] being the
    view that is left: [removeEmbed], run with a live instance while
    [old_view] is not the 3D view and [current_view] already names the
    other view, saves the zoom and the pan of the instance in the
    variables of [k] and sets its old-zoom marker to null, the variables
    of the other view being kept. Whatever happens elsewhere
    afterwards, the next callback that serves [k] hands exactly the saved
    zoom and pan to the instance then live, and sets the marker so that a
    further callback restores nothing. *)
Theorem pan_zoom_kept_across_views k s inst t inst' :
  panZoom_instance s = Some inst →
  old_view s ≠ Some "show_3d" →
  current_view s = Some (view_name (other k)) →
  rtc (elsewhere k) (state_of (removeEmbed s)) t →
  current_view t = Some (view_name k) →
  panZoom_instance t = Some inst' →
  let s' := state_of (removeEmbed s) in
  current_zoom k s' = Some (getZoom inst) ∧
  current_pan k s' = Some (getPan inst) ∧
  old_zoom k s' = None ∧
  current_zoom (other k) s' = current_zoom (other k) s ∧
  current_pan (other k) s' = current_pan (other k) s ∧
  old_zoom (other k) s' = old_zoom (other k) s ∧
  ∃ t',
    onUpdatedCTM t = Done t' ∧
    panZoom_instance t'
    = Some (zoom_and_pan (Some (getZoom inst)) (Some (getPan inst)) inst') ∧
    old_zoom k t' = current_zoom k t' ∧
    onUpdatedCTM t' = Done t'.
Proof.
  intros Hinst Hold Hcur Hreach Hview Hinst' s'.
  destruct (removeEmbed_saves k s inst Hinst Hold Hcur)
    as (Hz & Hp & Ho & Hz' & Hp' & Ho').
  fold s' in Hz, Hp, Ho, Hz', Hp', Ho'.
  do 6 (split; [done|]).
  apply elsewhere_rtc_keeps in Hreach as (Kz & Kp & Ko).
  fold s' in Kz, Kp, Ko. rewrite Hz in Kz. rewrite Hp in Kp. rewrite Ho in Ko.
  assert (callback_serves k t) as Hserve.
  { destruct k; simpl in *; [done|]. rewrite Hview. done. }
  destruct (onUpdatedCTM_restores k t inst' _ _ Hserve Hinst' Kz Kp Ko)
    as (t' & Hrun & Hi & Hold' & Hcz & Hcp).
  exists t'. split; [done|]. split; [done|]. split; [by rewrite Hold', Hcz|].
  assert (current_view t' = current_view t) as Hv'.
  { unfold onUpdatedCTM in Hrun.
    repeat (case_bool_decide || case_match); by simplify_eq/=. }
  unfold onUpdatedCTM. rewrite Hv', Hview.
  destruct k; cbn [view_name old_zoom current_zoom] in *.
  - rewrite bool_decide_true by done.
    by rewrite bool_decide_false by (rewrite Hold', Hcz; auto).
  - rewrite bool_decide_false by done.
    by rewrite bool_decide_false by (rewrite Hold', Hcz; auto).
Qed.

End panzoom_facts.

Lemma pan_zoom_kept_across_views_witness :
  ∃ t',
    PanZoom.onUpdatedCTM PanZoom.example_back_in_sch = Done t' ∧
    PanZoom.panZoom_instance t'
    = Some {| PanZoom.getZoom := 1; PanZoom.getPan := (0, 0);
              PanZoom.received :=
                [PanZoom.ZoomTo (Some 3); PanZoom.PanTo (Some (10, -4))] |} ∧
    PanZoom.old_zoom PanZoom.Schematic t'
    = PanZoom.current_zoom PanZoom.Schematic t' ∧
    PanZoom.onUpdatedCTM t' = Done t'.
Proof.
  refine (proj2 (proj2 (proj2 (proj2 (proj2 (proj2
    (pan_zoom_kept_across_views PanZoom.Schematic
       PanZoom.example_leaving_sch _ PanZoom.example_back_in_sch _
       eq_refl _ eq_refl _ eq_refl eq_refl))))))).
  - discriminate.
  - apply (rtc_l _ _ PanZoom.example_layout_shown).
    { apply PanZoom.elsewhere_other. by repeat split. }
    apply (rtc_l _ _ PanZoom.example_layout_shown).
    { apply (PanZoom.elsewhere_callback _ PanZoom.example_layout_shown).
      simpl. discriminate. }
    apply (rtc_l _ _ PanZoom.example_leaving_pcb).
    { apply PanZoom.elsewhere_other. by repeat split. }
    eapply rtc_l.
    { apply (PanZoom.elsewhere_remove _ PanZoom.example_leaving_pcb).
      simpl. discriminate. }
    apply rtc_once. apply PanZoom.elsewhere_other. by repeat split.
Defined.

(** ** The page and layer radio lists *)

Section pages_facts.
Import Pages.
Implicit Types (rs : list radio) (s : state) (srv : server).

Lemma checked_index_from_only i rs (k : nat) :
  (k < length rs)%nat →
  (∀ (j : nat) r, rs !! j = Some r → checked r = bool_decide (j = k)) →
  checked_index_from i rs = i + Z.of_nat k.
Proof.
  revert i k. induction rs as [|r rs IH]; intros i k Hk Hrs; simpl in *; [lia|].
  pose proof (Hrs 0%nat r eq_refl) as H0.
  destruct k as [|k].
  - rewrite H0, bool_decide_true by done. lia.
  - rewrite H0, bool_decide_false by done.
    rewrite (IH (i + 1) k); [lia | lia |].
    intros j r' Hj. rewrite (Hrs (S j) r' Hj).
    apply bool_decide_ext. lia.
Qed.

Lemma length_check_only k rs : length (check_only k rs) = length rs.
Proof. unfold check_only. apply length_imap. Qed.

Lemma checked_index_check_only (k : nat) rs :
  (k < length rs)%nat → checked_index (check_only k rs) = Z.of_nat k.
Proof.
  intros Hk. unfold checked_index.
  rewrite (checked_index_from_only 0 _ k); [lia | by rewrite length_check_only |].
  intros j r. unfold check_only. rewrite list_lookup_imap.
  destruct (rs !! j); intros [= <-]; done.
Qed.

Lemma radio_check_in (t : Z) rs :
  0 <= t < Z.of_nat (length rs) →
  radio_check t rs = Done (check_only (Z.to_nat t) rs) ∧
  checked_index (check_only (Z.to_nat t) rs) = t.
Proof.
  intros Ht. unfold radio_check. rewrite decide_True by done.
  split; [done|]. rewrite checked_index_check_only; lia.
Qed.

Lemma checked_index_from_bound i rs :
  checked_index_from i rs = -1 ∨
  i <= checked_index_from i rs < i + Z.of_nat (length rs).
Proof.
  revert i. induction rs as [|r rs IH]; intros i; simpl; [by left|].
  destruct (checked r); [right; lia|].
  destruct (IH (i + 1)) as [?|?]; [by left | right; lia].
Qed.

Lemma checked_index_bound rs :
  0 <= checked_index rs → checked_index rs < Z.of_nat (length rs).
Proof.
  intros H0. destruct (checked_index_from_bound 0 rs) as [H1|H1];
    unfold checked_index in *; lia.
Qed.

Lemma next_index_target cycle rs :
  0 <= checked_index rs →
  next_index cycle rs
  = next_target cycle (Z.of_nat (length rs)) (checked_index rs) ∧
  0 <= next_index cycle rs < Z.of_nat (length rs).
Proof.
  intros Hk. pose proof (checked_index_bound rs Hk).
  unfold next_index, next_target.
  repeat case_bool_decide; destruct cycle; split; lia.
Qed.

Lemma preview_index_target cycle rs :
  0 <= checked_index rs →
  preview_index cycle rs
  = preview_target cycle (Z.of_nat (length rs)) (checked_index rs) ∧
  0 <= preview_index cycle rs < Z.of_nat (length rs).
Proof.
  intros Hk. pose proof (checked_index_bound rs Hk).
  unfold preview_index, preview_target.
  repeat case_bool_decide; destruct cycle; split; lia.
Qed.


Lemma check_only_check_only (k t : nat) rs :
  check_only k (check_only t rs) = check_only k rs.
Proof.
  unfold check_only. apply list_eq. intros i.
  rewrite !list_lookup_imap. by destruct (rs !! i).
Qed.

Lemma sheets_unchanged_check_only srv (k : nat) rs :
  sheets_unchanged srv rs → sheets_unchanged srv (check_only k rs).
Proof.
  intros (t1 & t2 & H1 & H2 & Heq). exists t1, t2.
  by rewrite fmap_id_check_only.
Qed.

Lemma update_sheets_list_unchanged srv s :
  sheets_unchanged srv (pages s) →
  ∃ s1, update_sheets_list srv s = Done s1 ∧ same_but_sheet s s1.
Proof.
  intros (t1 & t2 & H1 & H2 & Heq).
  destruct (update_sheets_list_cases srv s t1 t2 H1 H2) as [Hkeep _].
  by apply Hkeep.
Qed.



(** The state of the counterexample is the one [update_page] leaves when
    the commits change from a project whose only sheet is "old" to the
    project of [example_server]. *)
Lemma example_restoration_pending_reached :
  update_page example_server example_before_change
  = Done example_restoration_pending.
Proof. reflexivity. Qed.



End pages_facts.

(** * Further properties *)

(** ** The navigation keys, the reset key and the clicks on the commits *)

Section commits_navigation.
Import Commits.
Implicit Types (l commits : list bool) (i j : Z).

Ltac nav_cases :=
  repeat first
    [ progress simpl
    | progress unfold js_ge, js_le, js_lt, js_gt, js_eq, js_set, js_get,
        js_add, js_sub
    | case_bool_decide ].

(** Two lists of the same length in which the same boxes are checked are
    equal. *)
Lemma checked_lookups_eq l l' :
  length l = length l' →
  (∀ m : nat, l !! m = Some true ↔ l' !! m = Some true) →
  l = l'.
Proof.
  intros Hlen Hl. apply list_eq. intros m.
  destruct (l !! m) as [b|] eqn:Hm.
  - assert (m < length l')%nat as Hm'
      by (rewrite <- Hlen; by eapply lookup_lt_Some).
    apply lookup_lt_is_Some in Hm' as [b' Hb'].
    rewrite Hb'. f_equal.
    destruct b, b'; try done.
    + apply Hl in Hm. congruence.
    + apply Hl in Hb'. congruence.
  - symmetry. apply lookup_ge_None. rewrite <- Hlen.
    by apply lookup_ge_None.
Qed.

Lemma two_checked_unique l l' i j :
  two_checked l i j → two_checked l' i j → length l = length l' → l = l'.
Proof.
  intros (_ & _ & Hl) (_ & _ & Hl') Hlen.
  apply checked_lookups_eq; [done|]. intros m. by rewrite Hl, Hl'.
Qed.

Lemma moved_back l i j i' j' :
  two_checked l i j → 0 <= i' < j' → j' < len l →
  moved (moved l i j i' j') i' j' i j = l.
Proof.
  intros Htwo Hi' Hj'. pose proof Htwo as (Hij & Hj & _).
  pose proof (moved_two_checked l i j i' j' Htwo Hi' Hj') as Htwo'.
  apply (two_checked_unique _ _ i j); [|done|by rewrite !length_moved].
  apply moved_two_checked; [done | lia |].
  unfold len in *. by rewrite length_moved.
Qed.

Lemma moved_same l i j : two_checked l i j → moved l i j i j = l.
Proof.
  intros Htwo. pose proof Htwo as (Hij & Hj & _).
  apply (two_checked_unique _ _ i j); [|done|by rewrite length_moved].
  by apply moved_two_checked.
Qed.



(** X2. With exactly the boxes [i < j] checked,
    [select_previows_2_commits] moves the second mark up by one and leaves
    the first where it is; when the two marks touch, the first moves up as
    well, and at the top, [(0, 1)], nothing moves. *)
Theorem select_previows_2_commits_moves_second
    (commits : list bool) (i j : Z) :
  selected_indices commits = [i; j] →
  let i' := if bool_decide (j - 1 = i) then Z.max (i - 1) 0 else i in
  let j' := Z.max (j - 1) 1 in
  select_previows_2_commits commits = Done (moved commits i j i' j') ∧
  selected_indices (moved commits i j i' j') = [i'; j'] ∧
  (i + 1 < j → i' = i ∧ j' = j - 1) ∧
  (i + 1 = j → 0 < i → i' = i - 1 ∧ j' = j - 1) ∧
  (i = 0 → j = 1 → i' = 0 ∧ j' = 1).
Proof.
  intros Hsel%selected_two i' j'. pose proof Hsel as (Hij & Hj & _).
  split; [by apply select_previows_2_commits_two|].
  split; [apply moved_selected; [done | | lia]|];
    unfold i', j'; case_bool_decide; lia.
Qed.

Lemma select_previows_2_commits_moves_second_witness :
  select_previows_2_commits [false; true; true; false]
  = Done [true; true; false; false].
Proof.
  exact (proj1 (select_previows_2_commits_moves_second
                  [false; true; true; false] 1 2 eq_refl)).
Defined.

(** X3. The navigation keys undo each other away from the ends of the
    list. With exactly the boxes [i < j] checked: when [j] is not the last
    box, [select_next_commit] followed by [select_previows_commit] gives
    back the list, and so does [select_next_2_commits] followed by
    [select_previows_2_commits]; when [i] is not the first box,
    [select_previows_commit] followed by [select_next_commit] gives it
    back; when the two marks do not touch, [select_previows_2_commits]
    followed by [select_next_2_commits] gives it back. *)
Theorem next_previows_round_trip (commits : list bool) (i j : Z) :
  selected_indices commits = [i; j] →
  (j < len commits - 1 →
     (∃ c, select_next_commit commits = Done c ∧
           select_previows_commit c = Done commits) ∧
     (∃ c, select_next_2_commits commits = Done c ∧
           select_previows_2_commits c = Done commits)) ∧
  (0 < i →
     ∃ c, select_previows_commit commits = Done c ∧
          select_next_commit c = Done commits) ∧
  (i + 1 < j →
     ∃ c, select_previows_2_commits commits = Done c ∧
          select_next_2_commits c = Done commits).
Proof.
  intros Hsel%selected_two. pose proof Hsel as (Hij & Hj & _).
  assert (∀ i' j', 0 <= i' < j' → j' < len commits →
            two_checked (moved commits i j i' j') i' j' ∧
            len (moved commits i j i' j') = len commits) as Hmv.
  { intros i' j' Hi' Hj'. split; [by apply moved_two_checked|].
    unfold len. by rewrite length_moved. }
  split; [|split].
  - intros Hend. split.
    + eexists. split; [by apply select_next_commit_two|].
      destruct (Hmv (Z.min (i + 1) (len commits - 2))
                     (Z.min (j + 1) (len commits - 1))) as [Htwo Hlen];
        [lia | lia |].
      rewrite (select_previows_commit_two _ _ _ Htwo). f_equal.
      replace (Z.max (Z.min (i + 1) (len commits - 2) - 1) 0) with i by lia.
      replace (Z.max (Z.min (j + 1) (len commits - 1) - 1) 1) with j by lia.
      apply moved_back; [done | lia | lia].
    + eexists. split; [by apply select_next_2_commits_two|].
      rewrite bool_decide_false by lia.
      destruct (Hmv i (j + 1)) as [Htwo Hlen]; [lia | lia |].
      rewrite (select_previows_2_commits_two _ _ _ Htwo). f_equal.
      rewrite bool_decide_false by lia.
      replace (Z.max (j + 1 - 1) 1) with j by lia.
      apply moved_back; [done | lia | lia].
  - intros Hi. eexists. split; [by apply select_previows_commit_two|].
    destruct (Hmv (Z.max (i - 1) 0) (Z.max (j - 1) 1)) as [Htwo Hlen];
      [lia | lia |].
    rewrite (select_next_commit_two _ _ _ Htwo), Hlen. f_equal.
    replace (Z.min (Z.max (i - 1) 0 + 1) (len commits - 2)) with i by lia.
    replace (Z.min (Z.max (j - 1) 1 + 1) (len commits - 1)) with j by lia.
    apply moved_back; [done | lia | lia].
  - intros Hgap. eexists. split; [by apply select_previows_2_commits_two|].
    rewrite bool_decide_false by lia.
    destruct (Hmv i (Z.max (j - 1) 1)) as [Htwo Hlen]; [lia | lia |].
    rewrite (select_next_2_commits_two _ _ _ Htwo), Hlen.
    rewrite bool_decide_false by lia. f_equal.
    replace (Z.max (j - 1) 1 + 1) with j by lia.
    apply moved_back; [done | lia | lia].
Qed.

Lemma next_previows_round_trip_witness :
  ∃ c, select_next_commit [true; false; true; false] = Done c ∧
       select_previows_commit c = Done [true; false; true; false].
Proof.
  refine (proj1 (proj1 (next_previows_round_trip
                          [true; false; true; false] 0 2 eq_refl) _)).
  vm_compute. reflexivity.
Defined.

(** X4. The navigation stops at the ends of the list: with the last two
    boxes checked [select_next_commit] and [select_next_2_commits] return
    the list as it is, and with the first two boxes checked so do
    [select_previows_commit] and [select_previows_2_commits]. *)
Theorem navigation_stops_at_the_ends (commits : list bool) (i j : Z) :
  selected_indices commits = [i; j] →
  (i = len commits - 2 → j = len commits - 1 →
     select_next_commit commits = Done commits ∧
     select_next_2_commits commits = Done commits) ∧
  (i = 0 → j = 1 →
     select_previows_commit commits = Done commits ∧
     select_previows_2_commits commits = Done commits).
Proof.
  intros Hsel%selected_two. pose proof Hsel as (Hij & Hj & _).
  pose proof (moved_same _ _ _ Hsel) as Hsame.
  split.
  - intros -> ->. split.
    + rewrite (select_next_commit_two _ _ _ Hsel).
      replace (Z.min (len commits - 2 + 1) (len commits - 2))
        with (len commits - 2) by lia.
      replace (Z.min (len commits - 1 + 1) (len commits - 1))
        with (len commits - 1) by lia.
      by rewrite Hsame.
    + rewrite (select_next_2_commits_two _ _ _ Hsel).
      rewrite bool_decide_true by lia.
      replace (Z.min (len commits - 2 + 1) (len commits - 2))
        with (len commits - 2) by lia.
      by rewrite Hsame.
  - intros -> ->. split.
    + rewrite (select_previows_commit_two _ _ _ Hsel).
      replace (Z.max (0 - 1) 0) with 0 by lia.
      replace (Z.max (1 - 1) 1) with 1 by lia.
      by rewrite Hsame.
    + rewrite (select_previows_2_commits_two _ _ _ Hsel).
      rewrite bool_decide_true by lia.
      replace (Z.max (0 - 1) 0) with 0 by lia.
      replace (Z.max (1 - 1) 1) with 1 by lia.
      by rewrite Hsame.
Qed.

Lemma navigation_stops_at_the_ends_witness :
  select_next_commit [false; true; true] = Done [false; true; true] ∧
  select_next_2_commits [false; true; true] = Done [false; true; true].
Proof.
  exact (proj1 (navigation_stops_at_the_ends [false; true; true] 1 2 eq_refl)
           eq_refl eq_refl).
Defined.


Lemma selected_one l i :
  selected_indices l = [i] ↔
  0 <= i < len l ∧ ∀ m : nat, l !! m = Some true ↔ Z.of_nat m = i.
Proof.
  unfold selected_indices, len. split.
  - intros Hsel.
    assert (∀ z, z = i ↔ ∃ m : nat, z = Z.of_nat m ∧ l !! m = Some true)
      as Hel.
    { intros z. rewrite <- (elem_of_checked_from 0 l z), Hsel.
      by rewrite list_elem_of_singleton. }
    destruct (proj1 (Hel i)) as (mi & -> & Hmi); [done|].
    pose proof (lookup_lt_Some _ _ _ Hmi).
    split; [lia|]. intros m. split.
    + intros Hm. apply Hel. eauto.
    + intros Hm. by replace m with mi by lia.
  - intros (Hi & Hl).
    assert (∀ z, z ∈ checked_from 0 l ↔ z = i) as Hel.
    { intros z. rewrite elem_of_checked_from. split.
      - intros (m & -> & Hm). by apply Hl.
      - intros ->. exists (Z.to_nat i). split; [lia|]. apply Hl. lia. }
    pose proof (checked_from_sorted 0 l) as Hs.
    destruct (checked_from 0 l) as [|x [|y rest]].
    + exfalso. by eapply (not_elem_of_nil i), Hel.
    + f_equal. apply Hel. by left.
    + exfalso. apply StronglySorted_inv in Hs as [_ Hx].
      apply Forall_cons in Hx as [Hxy _].
      assert (x = i) by (apply Hel; rewrite !elem_of_cons; auto).
      assert (y = i) by (apply Hel; rewrite !elem_of_cons; auto). lia.
Qed.

(** One checked box moved from [i] to [i']. *)
Lemma update_selected_one l i i' :
  selected_indices l = [i] → 0 <= i' < len l →
  update_selected [Num i] [Num i'] l
  = Done (<[Z.to_nat i' := true]> (<[Z.to_nat i := false]> l)) ∧
  selected_indices (<[Z.to_nat i' := true]> (<[Z.to_nat i := false]> l))
  = [i'].
Proof.
  intros (Hi & Hl)%selected_one Hi'. unfold len in *. split.
  - unfold update_selected. simpl. unfold set_checked.
    rewrite decide_True by lia. simpl.
    by rewrite decide_True by (rewrite length_insert; lia).
  - apply selected_one. unfold len. rewrite !length_insert.
    split; [done|]. intros m.
    destruct (decide (m < length l)%nat) as [Hm|Hm].
    + rewrite !list_lookup_insert by (rewrite ?length_insert; lia).
      specialize (Hl m).
      repeat case_decide; rewrite ?length_insert in *.
      all: split; intros Hx; try done; try lia.
      all: try (apply Hl in Hx; lia).
    + rewrite lookup_ge_None_2 by (rewrite !length_insert; lia).
      split; [done | lia].
Qed.





(** X7. With one box checked, at [i]: [select_previows_2_commits] leaves
    the list as it is and [select_previows_commit] moves the mark to
    [max (i - 1) 0]. In a list of two boxes or more [select_next_commit]
    moves the mark to [min (i + 1) (n - 2)] and [select_next_2_commits]
    to [min i (n - 2)], never to the last box. In a list of one box both
    throw, the box being unchecked by then. *)
Theorem navigation_with_one_selected (commits : list bool) (i : Z) :
  selected_indices commits = [i] →
  select_previows_2_commits commits = Done commits ∧
  (∃ c, select_previows_commit commits = Done c ∧
        selected_indices c = [Z.max (i - 1) 0]) ∧
  (2 <= len commits →
     (∃ c, select_next_commit commits = Done c ∧
           selected_indices c = [Z.min (i + 1) (len commits - 2)]) ∧
     (∃ c, select_next_2_commits commits = Done c ∧
           selected_indices c = [Z.min i (len commits - 2)])) ∧
  (len commits = 1 →
     select_next_commit commits = TypeError [false] ∧
     select_next_2_commits commits = TypeError [false]).
Proof.
  intros Hsel. pose proof Hsel as (Hi & Hl)%selected_one.
  assert (∀ i', 0 <= i' < len commits →
            ∃ c, update_selected [Num i] [Num i'] commits = Done c ∧
                 selected_indices c = [i']) as Hmove.
  { intros i' Hi'. eexists. by apply update_selected_one. }
  split; [|split; [|split]].
  - unfold select_previows_2_commits, selected_commits, shifted_commits.
    rewrite Hsel. nav_cases; [lia|].
    rewrite (proj1 (update_selected_one _ _ i Hsel Hi)). f_equal.
    rewrite list_insert_insert_eq. apply list_insert_id, Hl. lia.
  - unfold select_previows_commit, selected_commits, shifted_commits.
    rewrite Hsel. nav_cases.
    + replace (Z.max (i - 1) 0) with 0 by lia. apply Hmove. lia.
    + replace (Z.max (i - 1) 0) with (i + -1) by lia. apply Hmove. lia.
  - intros Hn. split.
    + unfold select_next_commit, selected_commits, shifted_commits.
      rewrite Hsel. nav_cases.
      * replace (Z.min (i + 1) (len commits - 2)) with (len commits - 2)
          by lia.
        apply Hmove. lia.
      * replace (Z.min (i + 1) (len commits - 2)) with (i + 1) by lia.
        apply Hmove. lia.
    + unfold select_next_2_commits, selected_commits, shifted_commits.
      rewrite Hsel. nav_cases.
      * replace (Z.min i (len commits - 2)) with (len commits - 2) by lia.
        apply Hmove. lia.
      * replace (Z.min i (len commits - 2)) with i by lia.
        apply Hmove. lia.
  - intros Hn. destruct commits as [|c [|c' commits]];
      unfold len in *; simpl in *; try lia.
    destruct c; [|done]. injection Hsel as <-. done.
Qed.

Lemma navigation_with_one_selected_witness :
  select_previows_2_commits [false; true; false]
  = Done [false; true; false].
Proof.
  exact (proj1 (navigation_with_one_selected [false; true; false] 1 eq_refl)).
Defined.

(** X8. A click on a box when at most two are checked: a checked box is
    unchecked; an unchecked box is checked when fewer than two are checked,
    and stays unchecked when two are, the handler undoing the click; a
    click that falls on no box changes nothing. *)
Theorem user_click_allows_two (commits : list bool) (k : nat) :
  count_checked commits <= 2 →
  (commits !! k = Some true → user_click k commits = <[k := false]> commits) ∧
  (commits !! k = Some false → count_checked commits < 2 →
     user_click k commits = <[k := true]> commits) ∧
  (commits !! k = Some false → count_checked commits = 2 →
     user_click k commits = commits) ∧
  (commits !! k = None → user_click k commits = commits).
Proof.
  intros Hcount. unfold user_click, on_change.
  split; [|split; [|split]]; intros Hk; rewrite Hk; simpl; [| | |done].
  - rewrite (count_checked_insert _ _ _ _ Hk).
    by rewrite bool_decide_false by lia.
  - intros Hlt. rewrite (count_checked_insert _ _ _ _ Hk).
    by rewrite bool_decide_false by lia.
  - intros Heq. rewrite (count_checked_insert _ _ _ _ Hk).
    rewrite bool_decide_true by lia.
    rewrite list_insert_insert_eq. by apply list_insert_id.
Qed.

Lemma user_click_allows_two_witness :
  user_click 2 [true; true; false] = [true; true; false].
Proof.
  refine (proj1 (proj2 (proj2 (user_click_allows_two [true; true; false] 2 _)))
            eq_refl eq_refl).
  vm_compute. discriminate.
Defined.




End commits_navigation.

(** ** Clicks on the graph and the initial selection *)

Section graph_clicks.
Import Graph.
Implicit Types (cs : list commit) (v : jsstr) (x : string).

Lemma hash_is_recolor v v1 v2 (c : commit) :
  hash_is v (recolor v1 v2 c) = hash_is v c.
Proof. unfold recolor. by repeat case_match. Qed.

Lemma recolor_recolor v1 v2 w1 w2 (c : commit) :
  recolor v1 v2 (recolor w1 w2 c) = recolor v1 v2 c.
Proof.
  unfold recolor at 1 3. rewrite !hash_is_recolor.
  assert (hash (recolor w1 w2 c) = hash c) as ->; [|done].
  unfold recolor. by repeat case_match.
Qed.

Lemma lookup_hash_recolor v1 v2 cs (k : nat) :
  hash <$> (recolor v1 v2 <$> cs) !! k = hash <$> cs !! k.
Proof.
  rewrite list_lookup_fmap. destruct (cs !! k) as [c|]; [|done]. simpl.
  unfold recolor. by repeat case_match.
Qed.

Lemma fmap_hash_recolor v1 v2 cs :
  hash <$> (recolor v1 v2 <$> cs) = hash <$> cs.
Proof.
  rewrite <- list_fmap_compose. apply list_fmap_ext. intros _ c _. simpl.
  unfold recolor. by repeat case_match.
Qed.

Lemma last_index_recolor v v1 v2 cs i a :
  last_index v (recolor v1 v2 <$> cs) i a = last_index v cs i a.
Proof.
  revert i a. induction cs as [|c cs IH]; intros i a; simpl; [done|].
  by rewrite hash_is_recolor, IH.
Qed.

Lemma last_index_app v cs1 cs2 i a :
  last_index v (cs1 ++ cs2) i a
  = last_index v cs2 (i + Z.of_nat (length cs1)) (last_index v cs1 i a).
Proof.
  revert i a. induction cs1 as [|c cs1 IH]; intros i a; simpl.
  - by rewrite Z.add_0_r.
  - rewrite IH. f_equal. lia.
Qed.

Lemma commit_click_ordered (s : state) x :
  NoDup (hash <$> commits s) → selection_ordered s →
  x ∈ hash <$> commits s →
  selection_ordered (commit_click (Some x) s) ∧
  hash <$> commits (commit_click (Some x) s) = hash <$> commits s.
Proof.
  intros Hnd (c1 & c2 & x1 & x2 & H1 & H2 & Hc1 & Hc2 & Hlt) Hx.
  apply list_elem_of_lookup in Hx as [h Hh]. rewrite list_lookup_fmap in Hh.
  unfold commit_click. rewrite find_indices_last_index, H1, H2.
  rewrite (last_index_unique x _ h), (last_index_unique x1 _ c1),
    (last_index_unique x2 _ c2) by done.
  unfold selection_ordered.
  repeat case_bool_decide; simpl; rewrite fmap_hash_recolor;
    (split; [|done]); setoid_rewrite lookup_hash_recolor.
  - exists c1, h, x1, x. repeat split; try done. lia.
  - exists h, c2, x, x2. repeat split; try done. lia.
  - exists c1, h, x1, x. repeat split; try done. lia.
  - exists h, c2, x, x2. repeat split; try done. lia.
Qed.

(** X10. In a graph whose hashes are distinct, once [commit2] stands
    strictly before [commit1], it does so after any sequence of clicks on
    commits of the graph: the two selected commits never coincide and
    never swap. The clicks change no hash of the graph. *)
Theorem clicks_keep_selection_ordered (s : state) (xs : list string) :
  NoDup (hash <$> commits s) →
  selection_ordered s →
  Forall (λ x, x ∈ hash <$> commits s) xs →
  selection_ordered (clicks xs s) ∧
  hash <$> commits (clicks xs s) = hash <$> commits s.
Proof.
  unfold clicks. revert s.
  induction xs as [|x xs IH]; intros s Hnd Hord Hxs; simpl; [done|].
  apply Forall_cons in Hxs as [Hx Hxs].
  destruct (commit_click_ordered s x Hnd Hord Hx) as [Hord' Hhash].
  destruct (IH (commit_click (Some x) s)) as [Hfin Hhash'].
  - by rewrite Hhash.
  - done.
  - by rewrite Hhash.
  - split; [done|]. by rewrite Hhash'.
Qed.

Lemma clicks_keep_selection_ordered_witness :
  selection_ordered (clicks ["c3"; "a1"; "e5"; "b2"] example_graph).
Proof.
  refine (proj1 (clicks_keep_selection_ordered example_graph
                   ["c3"; "a1"; "e5"; "b2"] _ _ _)).
  - apply (bool_decide_unpack _). vm_compute. exact I.
  - exists 4%nat, 1%nat, "e5"%string, "b2"%string. repeat split. lia.
  - apply (bool_decide_unpack _). vm_compute. exact I.
Defined.

Lemma commit_click_last_two cs c2 c1 x (n : Z) :
  (∀ v i a, hash_is v c1 = true → last_index v cs i a = i + n + 1) →
  (∀ v i a, hash_is v c1 = false → hash_is v c2 = true →
            last_index v cs i a = i + n) →
  x = hash c1 ∨ x = hash c2 →
  commit_click (Some x)
    {| commits := cs; commit1 := Some (hash c1); commit2 := Some (hash c2) |}
  = {| commits := recolor (Some (hash c1)) (Some (hash c2)) <$> cs;
       commit1 := Some (hash c1); commit2 := Some (hash c2) |}.
Proof.
  intros Hlast1 Hlast2 Hx.
  assert (hash_is (Some (hash c1)) c1 = true) as Hc1
    by (unfold hash_is; by rewrite bool_decide_true).
  assert (hash_is (Some (hash c2)) c2 = true) as Hc2
    by (unfold hash_is; by rewrite bool_decide_true).
  unfold commit_click. simpl. rewrite find_indices_last_index.
  rewrite (Hlast1 (Some (hash c1))) by done.
  destruct (hash_is (Some (hash c2)) c1) eqn:E.
  - assert (hash c1 = hash c2) as Heq.
    { unfold hash_is in E. apply bool_decide_eq_true in E. congruence. }
    assert (x = hash c1) as -> by (destruct Hx; congruence).
    rewrite (Hlast1 (Some (hash c1))), (Hlast1 (Some (hash c2))) by done.
    rewrite bool_decide_true by lia. by rewrite Heq.
  - rewrite (Hlast2 (Some (hash c2))) by done.
    destruct Hx as [-> | ->].
    + rewrite (Hlast1 (Some (hash c1))) by done.
      rewrite bool_decide_false by lia. by rewrite bool_decide_true by lia.
    + rewrite (Hlast2 (Some (hash c2))) by done.
      by rewrite bool_decide_true by lia.
Qed.

(** X11. [select_initial_commits] on a graph of two commits or more
    selects the last commit as [commit1] and the one before it as
    [commit2], and colours the commits accordingly. On a graph of one
    commit both variables get its hash, and the commit is drawn in the
    colour of [commit1]. *)
Theorem select_initial_commits_last_two (s : state) :
  let s' := select_initial_commits s in
  (∀ cs c2 c1, commits s = cs ++ [c2; c1] →
     commit1 s' = Some (hash c1) ∧ commit2 s' = Some (hash c2) ∧
     commits s'
     = recolor (Some (hash c1)) (Some (hash c2)) <$> commits s) ∧
  (∀ c, commits s = [c] →
     commit1 s' = Some (hash c) ∧ commit2 s' = Some (hash c) ∧
     commits s'
     = [ {| hash := hash c; message_color := "#0FF"; dot_color := "#0FF" |} ]).
Proof.
  simpl. split.
  - intros cs c2 c1 Hcs. unfold select_initial_commits. rewrite Hcs.
    rewrite length_app. simpl length.
    rewrite bool_decide_true by lia.
    replace (length cs + 2 - 1)%nat with (length cs + 1)%nat by lia.
    replace (length cs + 2 - 2)%nat with (length cs + 0)%nat by lia.
    rewrite !lookup_app_r by lia.
    replace (length cs + 1 - length cs)%nat with 1%nat by lia.
    replace (length cs + 0 - length cs)%nat with 0%nat by lia.
    cbn [lookup list_lookup fmap option_fmap option_map].
    assert (∀ v i a,
      last_index v (cs ++ [c2; c1]) i a
      = if hash_is v c1 then i + Z.of_nat (length cs) + 1
        else if hash_is v c2 then i + Z.of_nat (length cs)
        else last_index v cs i a) as Hlast.
    { intros v i a. rewrite last_index_app. simpl.
      by destruct (hash_is v c1), (hash_is v c2). }
    rewrite (commit_click_last_two _ c2 c1 (hash c1) (Z.of_nat (length cs)));
      [|intros v i a Hv; by rewrite Hlast, Hv
       |intros v i a Hv Hv'; by rewrite Hlast, Hv, Hv'
       |by left].
    cbn [commit1 commit2].
    rewrite (commit_click_last_two _ c2 c1 (hash c2) (Z.of_nat (length cs)));
      [|intros v i a Hv; by rewrite last_index_recolor, Hlast, Hv
       |intros v i a Hv Hv'; by rewrite last_index_recolor, Hlast, Hv, Hv'
       |by right].
    cbn [commit1 commit2 commits]. repeat split.
    rewrite <- list_fmap_compose. apply list_fmap_ext. intros _ c _. simpl.
    apply recolor_recolor.
  - intros c Hc. unfold select_initial_commits. rewrite Hc. simpl.
    assert (hash_is (Some (hash c)) c = true) as Hcc
      by (unfold hash_is; by rewrite bool_decide_true).
    unfold commit_click, recolor. simpl. rewrite !Hcc.
    destruct (hash_is (commit2 s) c); simpl; rewrite ?Hcc; simpl;
      unfold hash_is; simpl; rewrite ?bool_decide_true by done; done.
Qed.

Lemma select_initial_commits_last_two_witness :
  commit1 (select_initial_commits example_single_commit) = Some "a1"%string ∧
  commit2 (select_initial_commits example_single_commit) = Some "a1"%string.
Proof.
  destruct (proj2 (select_initial_commits_last_two example_single_commit)
              _ eq_refl)
    as (H1 & H2 & _).
  exact (conj H1 H2).
Defined.

End graph_clicks.

(** ** The list of sheets and the page inputs *)

Section sheets_comparison.
Import Sheets.







End sheets_comparison.

Section pages_update.
Import Pages.
Implicit Types (rs : list radio) (s : state) (srv : server).





(** The state in which [update_sheets_list] loads the files: the state it
    was called in, but for the name of the selected sheet. *)
Lemma update_sheets_list_saved srv s :
  ∃ s1,
    same_but_sheet s s1 ∧
    (∀ r, 0 <= checked_index (pages s) →
          pages s !! Z.to_nat (checked_index (pages s)) = Some r →
          selected_sheet s1 = Some (id r)) ∧
    update_sheets_list srv s
    = match Sheets.loadFile (sch_sheets1 srv),
            Sheets.loadFile (sch_sheets2 srv) with
      | Some text1, Some text2 =>
          let sheets :=
            Sheets.sheets_of (Sheets.lines text1) (Sheets.lines text2) in
          if bool_decide (Sheets.toString (id <$> pages s)
                          = Sheets.toString sheets)
          then Done s1
          else
            match sheets with
            | [] => TypeError s1
            | _ =>
                let fresh :=
                  (λ sheet, {| id := sheet; checked := false |}) <$> sheets in
                let hasOption :=
                  match selected_sheet s1 with
                  | Some v => bool_decide (v ∈ id <$> pages s)
                  | None => false
                  end in
                if hasOption then
                  Done (set_pages
                          (check_value
                             (default EmptyString (selected_sheet s1)) fresh)
                          s1)
                else
                  match pages s with
                  | [] => TypeError (set_pages fresh s1)
                  | _ => Done (set_pages fresh s1)
                  end
            end
      | _, _ => TypeError s1
      end.
Proof.
  unfold update_sheets_list.
  set (s1 := match pages s !! _ with Some _ => _ | None => _ end).
  exists s1. split; [|split; [|done]].
  - unfold s1. repeat case_match; by repeat split.
  - intros r Hk Hr. unfold s1. rewrite Hr.
    by rewrite bool_decide_true by done.
Qed.

(** X12. [update_sheets_list] throws, and [update_page] with it, when
    one of the two [sch_sheets] files does not load, and when both load
    but list no sheet while the page list does not read as empty. The page
    inputs are then left as they were. *)
Theorem update_sheets_list_throws srv s :
  (Sheets.loadFile (sch_sheets1 srv) = None ∨
   Sheets.loadFile (sch_sheets2 srv) = None →
   ∃ s', update_sheets_list srv s = TypeError s' ∧ same_but_sheet s s' ∧
         update_page srv s = TypeError s') ∧
  (∀ text1 text2,
     Sheets.loadFile (sch_sheets1 srv) = Some text1 →
     Sheets.loadFile (sch_sheets2 srv) = Some text2 →
     Sheets.sheets_of (Sheets.lines text1) (Sheets.lines text2) = [] →
     Sheets.toString (id <$> pages s) ≠ EmptyString →
     ∃ s', update_sheets_list srv s = TypeError s' ∧ same_but_sheet s s' ∧
           update_page srv s = TypeError s').
Proof.
  destruct (update_sheets_list_saved srv s) as (s1 & Hsame & _ & Hrun).
  unfold update_page. rewrite Hrun. split.
  - intros Hnone. exists s1.
    destruct Hnone as [-> | ->];
      [|destruct (Sheets.loadFile (sch_sheets1 srv))]; done.
  - intros text1 text2 -> -> Hnil Hcur. exists s1. simpl. rewrite Hnil.
    by rewrite bool_decide_false by done.
Qed.




Lemma update_sheets_list_throws_witness :
  ∃ s', update_sheets_list
          {| sch_sheets1 := {| Sheets.status := 404;
                               Sheets.responseText := EmptyString |};
             sch_sheets2 := sch_sheets2 example_server |}
          example_pages
        = TypeError s' ∧
        same_but_sheet example_pages s'.
Proof.
  destruct (proj1 (update_sheets_list_throws
                     {| sch_sheets1 := {| Sheets.status := 404;
                                          Sheets.responseText := EmptyString |};
                        sch_sheets2 := sch_sheets2 example_server |}
                     example_pages) (or_introl eq_refl))
    as (s' & Hrun & Hsame & _).
  exact (ex_intro _ s' (conj Hrun Hsame)).
Defined.




End pages_update.

(** ** The page and layer keys *)

Section pages_keys.
Import Pages.
Implicit Types (rs : list radio) (s : state) (srv : server).

(** X16. [update_page] returns only with a page selected: when it
    returns, the index of the selected page is an index of the page list;
    and either [current_selected_page] is that index, or no page was
    selected, the first page has been selected instead, and
    [previous_selected_page] has been given the value of
    [current_selected_page]. *)
Theorem update_page_selects_a_page srv s s' :
  update_page srv s = Done s' →
  0 <= checked_index (pages s') < Z.of_nat (length (pages s')) ∧
  (current_selected_page s' = checked_index (pages s') ∨
   checked_index (pages s') = 0 ∧
   previous_selected_page s' = current_selected_page s').
Proof.
  unfold update_page. intros Hrun.
  destruct (update_sheets_list srv s) as [s1|s1]; [|done].
  cbn [bind] in Hrun.
  assert (∀ t, (let selected_page := checked_index (pages t) in
                if bool_decide (0 <= selected_page)
                then Done (set_current_selected_page selected_page t)
                else on_pages (radio_check 0)
                       (set_previous_selected_page
                          (current_selected_page t) t)) = Done s' →
            0 <= checked_index (pages s') < Z.of_nat (length (pages s')) ∧
            (current_selected_page s' = checked_index (pages s') ∨
             checked_index (pages s') = 0 ∧
             previous_selected_page s' = current_selected_page s'))
    as Hlast.
  { intros t Ht. cbv zeta in Ht. case_bool_decide as Hsel.
    - injection Ht as <-. simpl.
      split; [|by left]. split; [done|]. by apply checked_index_bound.
    - unfold on_pages, radio_check in Ht. simpl in Ht.
      case_decide as Hlen; [|done]. injection Ht as <-. simpl.
      rewrite length_check_only.
      rewrite checked_index_check_only by lia.
      split; [lia|]. by right. }
  case_bool_decide as Hprev.
  - unfold on_pages in Hrun.
    destruct (radio_check (previous_selected_page s1) (pages s1));
      [|done].
    cbn [bind] in Hrun. by apply Hlast in Hrun.
  - cbn [bind] in Hrun. by apply Hlast in Hrun.
Qed.

Lemma update_page_selects_a_page_witness :
  0 <= checked_index (pages example_restoration_pending)
  < Z.of_nat (length (pages example_restoration_pending)).
Proof.
  exact (proj1 (update_page_selects_a_page example_server
                  example_before_change example_restoration_pending eq_refl)).
Defined.

(** With the sheets unchanged, a page selected and no restoration
    pending, [update_page] changes nothing but the two variables that
    name the selected page. *)
Lemma update_page_settled srv s :
  sheets_unchanged srv (pages s) →
  0 <= checked_index (pages s) →
  previous_selected_page s <= -1 →
  ∃ s', update_page srv s = Done s' ∧
        show_sch_checked s' = show_sch_checked s ∧
        current_view s' = current_view s ∧
        pages s' = pages s ∧
        previous_selected_page s' = previous_selected_page s.
Proof.
  intros Hsame Hk Hp.
  destruct (update_sheets_list_unchanged srv s Hsame)
    as (s1 & Hs1 & Hshow & Hview & Hpages & _ & Hprev & _).
  unfold update_page. rewrite Hs1. cbn [bind]. rewrite Hprev.
  rewrite bool_decide_false by lia. cbn [bind].
  rewrite Hpages, bool_decide_true by done.
  eexists. split; [done|]. done.
Qed.



(** One key press on the page list, the sheets unchanged and no
    restoration pending: page [t] is selected. *)
Lemma select_page_settled srv s (t : Z) :
  sheets_unchanged srv (pages s) →
  previous_selected_page s <= -1 →
  0 <= t < Z.of_nat (length (pages s)) →
  ∃ s', on_pages (radio_check t) s >>> update_page srv = Done s' ∧
        show_sch_checked s' = show_sch_checked s ∧
        current_view s' = current_view s ∧
        pages s' = check_only (Z.to_nat t) (pages s) ∧
        previous_selected_page s' = previous_selected_page s.
Proof.
  intros Hsame Hp Ht. unfold on_pages.
  destruct (radio_check_in t (pages s) Ht) as [-> Hidx]. cbn [bind].
  destruct (update_page_settled srv
              (set_pages (check_only (Z.to_nat t) (pages s)) s))
    as (s' & Hrun & ? & ? & ? & ?).
  - simpl. by apply sheets_unchanged_check_only.
  - simpl. lia.
  - done.
  - exists s'. by repeat split.
Qed.

(** X17. In the schematic view, with the list of sheets unchanged, the
    page [k] selected and no restoration pending, the two keys undo each
    other: [select_next_sch_or_pcb] followed by
    [select_preview_sch_or_pcb] selects page [k] again unless [k] is the
    last page and [cycle] is off, and [select_preview_sch_or_pcb] followed
    by [select_next_sch_or_pcb] does unless [k] is the first page and
    [cycle] is off. *)
Theorem select_next_preview_round_trip (cycle : bool) srv s (k : nat) :
  show_sch_checked s = true →
  current_view s = Some "show_sch"%string →
  sheets_unchanged srv (pages s) →
  previous_selected_page s <= -1 →
  checked_index (pages s) = Z.of_nat k →
  (cycle = true ∨ Z.of_nat k + 1 < Z.of_nat (length (pages s)) →
     ∃ s1 s2,
       select_next_sch_or_pcb cycle srv s = Done s1 ∧
       select_preview_sch_or_pcb cycle srv s1 = Done s2 ∧
       pages s2 = check_only k (pages s)) ∧
  (cycle = true ∨ (0 < k)%nat →
     ∃ s1 s2,
       select_preview_sch_or_pcb cycle srv s = Done s1 ∧
       select_next_sch_or_pcb cycle srv s1 = Done s2 ∧
       pages s2 = check_only k (pages s)).
Proof.
  intros Hshow Hview Hsame Hp Hk.
  assert (0 <= checked_index (pages s)) as Hk0 by lia.
  pose proof (checked_index_bound _ Hk0) as Hkn.
  destruct (next_index_target cycle (pages s) Hk0) as [Hnext Hnext_in].
  destruct (preview_index_target cycle (pages s) Hk0) as [Hprev Hprev_in].
  split; intros Hcase.
  - destruct (select_page_settled srv s _ Hsame Hp Hnext_in)
      as (s1 & Hrun1 & Hshow1 & Hview1 & Hpages1 & Hp1).
    assert (checked_index (pages s1) = next_index cycle (pages s)) as Hk1.
    { rewrite Hpages1, checked_index_check_only; lia. }
    assert (0 <= checked_index (pages s1)) as Hk10 by lia.
    destruct (preview_index_target cycle (pages s1) Hk10) as [Hprev1 Hin1].
    assert (sheets_unchanged srv (pages s1)) as Hsame1
      by (rewrite Hpages1; by apply sheets_unchanged_check_only).
    destruct (select_page_settled srv s1 (preview_index cycle (pages s1))
                Hsame1) as (s2 & Hrun2 & Hshow2 & Hview2 & Hpages2 & Hp2);
      [lia | done |].
    assert (sheets_unchanged srv (pages s2)) as Hsame2
      by (rewrite Hpages2; by apply sheets_unchanged_check_only).
    destruct (update_sheets_list_unchanged srv s2 Hsame2)
      as (s3 & Hrun3 & _ & _ & Hpages3 & _).
    exists s1, s3. unfold select_next_sch_or_pcb, select_preview_sch_or_pcb.
    rewrite Hshow, Hrun1. split; [done|].
    rewrite Hview1, Hview, bool_decide_true by done.
    rewrite Hrun2. cbn [bind]. split; [done|].
    rewrite Hpages3, Hpages2, Hpages1, check_only_check_only.
    rewrite Hpages1 in Hprev1, Hk1.
    f_equal. rewrite Hprev1, Hk1, Hnext, length_check_only, Hk.
    unfold preview_target, next_target.
    rewrite Hk in Hkn.
    destruct Hcase as [-> | Hlt]; repeat case_bool_decide;
      try destruct cycle; lia.
  - assert (current_view s = Some "show_sch"%string) as Hview' by done.
    destruct (select_page_settled srv s _ Hsame Hp Hprev_in)
      as (s1 & Hrun1 & Hshow1 & Hview1 & Hpages1 & Hp1).
    assert (sheets_unchanged srv (pages s1)) as Hsame1
      by (rewrite Hpages1; by apply sheets_unchanged_check_only).
    destruct (update_sheets_list_unchanged srv s1 Hsame1)
      as (s1' & Hrun1' & Hshow1' & Hview1' & Hpages1' & _ & Hp1' & _).
    assert (checked_index (pages s1') = preview_index cycle (pages s))
      as Hk1.
    { rewrite Hpages1', Hpages1, checked_index_check_only; lia. }
    assert (0 <= checked_index (pages s1')) as Hk10 by lia.
    destruct (next_index_target cycle (pages s1') Hk10) as [Hnext1 Hin1].
    assert (sheets_unchanged srv (pages s1')) as Hsame1'
      by (by rewrite Hpages1').
    destruct (select_page_settled srv s1' (next_index cycle (pages s1'))
                Hsame1') as (s2 & Hrun2 & Hshow2 & Hview2 & Hpages2 & Hp2);
      [lia | done |].
    exists s1', s2. unfold select_next_sch_or_pcb, select_preview_sch_or_pcb.
    rewrite Hview, bool_decide_true by done. rewrite Hrun1. cbn [bind].
    split; [done|].
    rewrite Hshow1', Hshow1, Hshow, Hrun2. split; [done|].
    rewrite Hpages2, Hpages1', Hpages1, check_only_check_only.
    rewrite Hpages1', Hpages1 in Hnext1, Hk1.
    f_equal. rewrite Hnext1, Hk1, Hprev, length_check_only, Hk.
    unfold preview_target, next_target.
    rewrite Hk in Hkn.
    destruct Hcase as [-> | Hlt]; repeat case_bool_decide;
      try destruct cycle; lia.
Qed.


Lemma select_next_preview_round_trip_witness :
  ∃ s1 s2,
    select_next_sch_or_pcb false example_server example_three_pages
    = Done s1 ∧
    select_preview_sch_or_pcb false example_server s1 = Done s2 ∧
    pages s2 = check_only 0 (pages example_three_pages).
Proof.
  refine (proj1 (select_next_preview_round_trip false example_server
                   example_three_pages 0 eq_refl eq_refl _ _ eq_refl) _).
  - exists example_sheets1, example_sheets2. by repeat split.
  - simpl. lia.
  - right. simpl. lia.
Defined.


End pages_keys.

(** ** The toggle between the views *)

Section view_toggle.
Import View.

Lemma checked_val_only m s : only_checked m s → checked_val s = Some (name m).
Proof.
  intros Hm. unfold checked_val.
  pose proof (Hm Sch) as Hs. pose proof (Hm Pcb) as Hp.
  pose proof (Hm ThreeD) as Ht. simpl in *.
  rewrite Hs, Hp, Ht. by destruct m.
Qed.

Lemma update_layer_keeps_layers s :
  layers s ≠ [] → layers (update_layer s) ≠ [].
Proof.
  intros Hl. unfold update_layer. case_bool_decide; [done|].
  by destruct (layers s).
Qed.

Lemma show_with_layers m s :
  layers s ≠ [] →
  current_view (show m s) = Some (name m) ∧
  only_checked m (show m s) ∧
  layers (show m s) ≠ [].
Proof.
  intros Hl. destruct m; simpl.
  - split; [done|]. split; [by intros []|done].
  - unfold show_pcb.
    match goal with |- context [update_layer ?t] =>
      destruct (update_layer_with_layers t) as (Hc & _ & Hk); [done|];
      pose proof (update_layer_keeps_layers t) as Hkeep end.
    rewrite Hc. split; [done|]. split; [|by apply Hkeep].
    intros m'. rewrite Hk. by destruct m'.
  - split; [done|]. split; [by intros []|done].
Qed.

Lemma update_commits_settled m s :
  layers s ≠ [] → only_checked m s →
  let s' := update_commits s in
  current_view s' = Some (name m) ∧ old_view s' = current_view s ∧
  only_checked m s' ∧ layers s' ≠ [].
Proof.
  intros Hl Hm. simpl. unfold update_commits.
  rewrite (checked_val_only m s Hm).
  set (t := set_views (current_view s) (Some (name m)) s).
  assert (only_checked m t) as Ht
    by (intros m'; by rewrite <- (Hm m'); destruct m').
  case_bool_decide.
  - destruct (update_layer_with_layers t) as (Hc & Ho & Hk); [done|].
    rewrite Hc, Ho. split; [done|]. split; [done|].
    split; [|by apply update_layer_keeps_layers].
    intros m'. by rewrite Hk.
  - done.
Qed.

(** X19. In a project that has layers, [toggle_sch_pcb_view] goes from
    the schematic to the layout, from the layout to the 3D view and from
    the 3D view to the schematic: with exactly the input of [m] checked,
    exactly the input of the view that follows is checked afterwards and
    [current_view] names it, whether the drawing of the view throws or
    not. When the function returns, [old_view] names that view too. *)
Theorem toggle_sch_pcb_view_cycles (m : mode) (drawn : bool) (s : state) :
  layers s ≠ [] →
  only_checked m s →
  let s' := state_of (toggle_sch_pcb_view drawn s) in
  current_view s' = Some (name (following m)) ∧
  only_checked (following m) s' ∧
  layers s' ≠ [] ∧
  (drawn = true → old_view s' = Some (name (following m))).
Proof.
  intros Hl Hm. simpl. unfold toggle_sch_pcb_view.
  rewrite (checked_val_only m s Hm).
  set (t := set_views (current_view s) (Some (name m)) s).
  assert (layers t ≠ []) as Hlt by done.
  assert (∀ u : state,
            current_view u = Some (name (following m)) →
            only_checked (following m) u → layers u ≠ [] →
            let s' := state_of (if drawn then Done (update_commits u)
                                else TypeError u) in
            current_view s' = Some (name (following m)) ∧
            only_checked (following m) s' ∧
            layers s' ≠ [] ∧
            (drawn = true → old_view s' = Some (name (following m))))
    as Hshown.
  { intros u Hc Hu Hlu. destruct drawn; simpl; [|done].
    destruct (update_commits_settled _ u Hlu Hu) as (Hc' & Ho' & Hu' & Hl').
    rewrite Ho', Hc. done. }
  destruct m; simpl in *.
  - destruct (show_with_layers Pcb t Hlt) as (? & ? & ?). by apply Hshown.
  - destruct (show_with_layers ThreeD t Hlt) as (? & ? & ?). by apply Hshown.
  - destruct (show_with_layers Sch t Hlt) as (? & ? & ?). by apply Hshown.
Qed.

Lemma toggle_sch_pcb_view_cycles_witness :
  current_view (state_of (toggle_sch_pcb_view true example_with_layout))
  = Some "show_pcb"%string.
Proof.
  refine (proj1 (toggle_sch_pcb_view_cycles Sch true example_with_layout _ _)).
  - discriminate.
  - by intros [].
Defined.

(** X20. In a project without layers the layout view is never the
    current one: after [show_sch], [show_pcb] or [show_3d], and after
    [toggle_sch_pcb_view] when the layout input was not checked,
    [current_view] is not "show_pcb" and the layout input is unchecked.
    In the schematic view of such a project [toggle_sch_pcb_view] stays in
    the schematic view. *)
Theorem layout_view_needs_layers (s : state) :
  layers s = [] →
  (∀ m, current_view (show m s) ≠ Some "show_pcb"%string ∧
        is_checked Pcb (show m s) = false) ∧
  (∀ drawn,
     is_checked Pcb s = false →
     let s' := state_of (toggle_sch_pcb_view drawn s) in
     current_view s' ≠ Some "show_pcb"%string ∧ is_checked Pcb s' = false) ∧
  (∀ drawn,
     only_checked Sch s →
     let s' := state_of (toggle_sch_pcb_view drawn s) in
     current_view s' = Some "show_sch"%string ∧ only_checked Sch s').
Proof.
  intros Hl. split; [|split].
  - intros []; simpl; [done| |done].
    unfold show_pcb, update_layer. simpl. rewrite Hl. simpl. done.
  - intros drawn Hp. simpl in *. unfold toggle_sch_pcb_view, checked_val.
    rewrite Hp.
    destruct (show_sch_checked s) eqn:Hs;
      [|destruct (show_3d_checked s) eqn:Ht];
      simpl; unfold update_commits, checked_val, show_pcb, update_layer;
      simpl; rewrite ?Hl, ?Hs, ?Hp, ?Ht; simpl; by destruct drawn.
  - intros drawn Hm. simpl. unfold toggle_sch_pcb_view.
    rewrite (checked_val_only Sch s Hm). simpl.
    unfold update_commits, checked_val, show_pcb, update_layer.
    simpl. rewrite Hl. simpl.
    destruct drawn; simpl; (split; [done | by intros []]).
Qed.

Lemma layout_view_needs_layers_witness :
  current_view (state_of (toggle_sch_pcb_view true example_no_layout))
  = Some "show_sch"%string.
Proof.
  refine (proj1 (proj2 (proj2 (layout_view_needs_layers example_no_layout
                                 eq_refl)) true _)).
  by intros [].
Defined.

End view_toggle.

(** ** The embed and the pan/zoom instance *)

Section panzoom_embeds.
Import PanZoom.
Context {zoom pan embed : Type} `{EqDecision zoom}.
Implicit Types (s t : state zoom pan embed) (inst : instance zoom pan).
Implicit Types (k : kind).

(** X21. [removeEmbed] does nothing when there is no pan/zoom instance.
    In every case it leaves no instance. With an instance and an embed it
    returns and leaves no embed; with an instance but no embed it throws,
    the instance being destroyed by then. *)
Theorem removeEmbed_outcome s :
  (panZoom_instance s = None → removeEmbed s = Done s) ∧
  panZoom_instance (state_of (removeEmbed s)) = None ∧
  (is_Some (panZoom_instance s) → is_Some (lastEmbed s) →
     ∃ s', removeEmbed s = Done s' ∧ lastEmbed s' = None) ∧
  (is_Some (panZoom_instance s) → lastEmbed s = None →
     ∃ s', removeEmbed s = TypeError s').
Proof.
  unfold removeEmbed. split; [by intros ->|]. split; [|split].
  - destruct (panZoom_instance s) eqn:Hi; [|done].
    repeat case_bool_decide; simpl; by destruct (lastEmbed s).
  - intros [inst ->] [e He].
    repeat case_bool_decide; simpl; rewrite He; eauto.
  - intros [inst ->] He.
    repeat case_bool_decide; simpl; rewrite He; eauto.
Qed.

(** X22. [removeEmbed] saves no zoom and no pan when [old_view] is
    "show_3d", or when [current_view] is neither "show_pcb" nor
    "show_sch": the zoom of a view that is left for the 3D view is not
    kept. *)
Theorem removeEmbed_saves_nothing s :
  old_view s = Some "show_3d"%string ∨
  (current_view s ≠ Some "show_pcb"%string ∧
   current_view s ≠ Some "show_sch"%string) →
  same_saved s (state_of (removeEmbed s)).
Proof.
  intros Hv. unfold removeEmbed.
  destruct (panZoom_instance s) as [inst|]; [|by repeat split].
  destruct Hv as [Hold | [Hpcb Hsch]].
  - rewrite bool_decide_false by (by intros []).
    destruct (lastEmbed s); by repeat split.
  - rewrite (bool_decide_false _ Hpcb), (bool_decide_false _ Hsch).
    case_bool_decide; destruct (lastEmbed s); by repeat split.
Qed.

(** X23. [onUpdatedCTM] settles: when a call returns, a second call
    returns the same state, so that the instance is asked to zoom and pan
    at most once for each zoom saved. The callback writes neither the view
    variables nor the embed nor a saved zoom or pan. *)
Theorem onUpdatedCTM_settles s s' :
  onUpdatedCTM s = Done s' →
  onUpdatedCTM s' = Done s' ∧
  current_view s' = current_view s ∧
  lastEmbed s' = lastEmbed s ∧
  ∀ k, current_zoom k s' = current_zoom k s ∧
       current_pan k s' = current_pan k s.
Proof.
  unfold onUpdatedCTM. intros Hrun.
  destruct (bool_decide (current_view s = Some "show_sch"%string)) eqn:Hv.
  - destruct (bool_decide (sch_current_zoom s ≠ sch_old_zoom s)) eqn:Hz.
    + destruct (panZoom_instance s); [|done]. injection Hrun as <-.
      simpl. rewrite Hv. rewrite bool_decide_false by auto.
      repeat split; by destruct k.
    + injection Hrun as <-. rewrite Hv, Hz. repeat split; by destruct k.
  - destruct (bool_decide (pcb_current_zoom s ≠ pcb_old_zoom s)) eqn:Hz.
    + destruct (panZoom_instance s); [|done]. injection Hrun as <-.
      simpl. rewrite Hv. rewrite bool_decide_false by auto.
      repeat split; by destruct k.
    + injection Hrun as <-. rewrite Hv, Hz. repeat split; by destruct k.
Qed.

(** X24. When [update_3d] has changed the view and returns, [lastEmbed]
    is the 3D element and there is no pan/zoom instance, so that
    [removeEmbed] does nothing in that state: the 3D element is not
    removed by it. *)
Theorem update_3d_embed_stays (e : embed) s s' :
  current_view s ≠ old_view s →
  update_3d e s = Done s' →
  lastEmbed s' = Some e ∧
  panZoom_instance s' = None ∧
  removeEmbed s' = Done s'.
Proof.
  intros Hv. unfold update_3d. rewrite (bool_decide_true _ Hv).
  destruct (removeEmbed s) as [t|t] eqn:Ht; [|done].
  simpl. by intros [= <-].
Qed.

End panzoom_embeds.

Lemma removeEmbed_saves_nothing_witness :
  PanZoom.same_saved PanZoom.example_leaving_sch_for_3d
    (state_of (PanZoom.removeEmbed PanZoom.example_leaving_sch_for_3d)).
Proof.
  apply (removeEmbed_saves_nothing PanZoom.example_leaving_sch_for_3d).
  right. split; discriminate.
Defined.

Lemma onUpdatedCTM_settles_witness :
  PanZoom.onUpdatedCTM
    (state_of (PanZoom.onUpdatedCTM PanZoom.example_back_in_sch))
  = Done (state_of (PanZoom.onUpdatedCTM PanZoom.example_back_in_sch)).
Proof.
  exact (proj1 (onUpdatedCTM_settles PanZoom.example_back_in_sch _ eq_refl)).
Defined.

Lemma update_3d_embed_stays_witness :
  PanZoom.lastEmbed
    (state_of (PanZoom.update_3d tt PanZoom.example_leaving_sch_for_3d))
  = Some tt.
Proof.
  refine (proj1 (update_3d_embed_stays tt PanZoom.example_leaving_sch_for_3d
                   _ _ eq_refl)).
  discriminate.
Defined.

Lemma removeEmbed_outcome_witness :
  ∃ s', PanZoom.removeEmbed PanZoom.example_leaving_sch_for_3d = Done s' ∧
        PanZoom.lastEmbed s' = None.
Proof.
  refine (proj1 (proj2 (proj2 (removeEmbed_outcome
                                 PanZoom.example_leaving_sch_for_3d))) _ _);
    by eexists.
Defined.

(** ** The layer entries and the server status *)

Section layers_facts.
Import Layers.

Lemma append_String (c : ascii) (t u : string) :
  String c t +:+ u = String c (t +:+ u).
Proof. done. Qed.

Lemma zeros_snoc (k : nat) (t : string) :
  zeros k +:+ String "0" t = String "0" (zeros k +:+ t).
Proof.
  induction k as [|k IH]; [done|].
  cbn [zeros]. by rewrite !append_String, IH.
Qed.

Lemma length_zeros_app (k : nat) (t : string) :
  String.length (zeros k +:+ t) = (k + String.length t)%nat.
Proof.
  induction k as [|k IH]; [done|].
  cbn [zeros]. rewrite append_String. simpl. by rewrite IH.
Qed.

Lemma pad_loop_zeros (fuel : nat) (num : string) (size : Z) :
  size - Z.of_nat (String.length num) <= Z.of_nat fuel →
  pad_loop fuel num size
  = zeros (Z.to_nat (size - Z.of_nat (String.length num))) +:+ num.
Proof.
  revert num. induction fuel as [|fuel IH]; intros num Hfuel; simpl.
  - by replace (Z.to_nat (size - Z.of_nat (String.length num))) with 0%nat
      by lia.
  - case_bool_decide as Hlt.
    + change ("0" +:+ num) with (String "0" num).
      rewrite IH by (simpl; lia). simpl String.length.
      replace (Z.to_nat (size - Z.of_nat (String.length num)))
        with (S (Z.to_nat (size - Z.of_nat (S (String.length num)))))
        by lia.
      cbn [zeros]. by rewrite append_String, zeros_snoc.
    + by replace (Z.to_nat (size - Z.of_nat (String.length num))) with 0%nat
        by lia.
Qed.

(** X25. [pad] puts zeros before the string until it has [size]
    characters: the result is the string after [size - length] zeros, none
    when the string is long enough, and its length is the larger of the
    two. The rounds given to the loop are enough: more rounds give the
    same result. *)
Theorem pad_prepends_zeros (num : string) (size : Z) :
  pad num size
  = zeros (Z.to_nat (size - Z.of_nat (String.length num))) +:+ num ∧
  Z.of_nat (String.length (pad num size))
  = Z.max (Z.of_nat (String.length num)) size ∧
  ∀ more : nat,
    pad_loop (Z.to_nat (size - Z.of_nat (String.length num)) + more) num size
    = pad num size.
Proof.
  assert (pad num size
          = zeros (Z.to_nat (size - Z.of_nat (String.length num))) +:+ num)
    as Hpad by (apply pad_loop_zeros; lia).
  split; [done|]. split.
  - rewrite Hpad, length_zeros_app. lia.
  - intros more. rewrite Hpad. apply pad_loop_zeros. lia.
Qed.

Lemma is_case_outside (z c : Z) :
  ¬ (0 <= z <= 4 ∨ 31 <= z <= 49) → (0 <= c <= 4 ∨ 31 <= c <= 49) →
  is_case (Num z) c = false.
Proof. intros Hz Hc. apply bool_decide_eq_false. intros ->. by apply Hz. Qed.

(** X26. [layer_color] gives the default colour "#DBDBDB" exactly to
    the values that are not a layer number of its table, the numbers 0 to
    4 and 31 to 49; NaN gets the default colour. *)
Theorem layer_color_default (layer_id : jsnum) :
  layer_color layer_id = "#DBDBDB"%string ↔
  ¬ ∃ z, layer_id = Num z ∧ (0 <= z <= 4 ∨ 31 <= z <= 49).
Proof.
  destruct layer_id as [z| |].
  - split.
    + intros Hcolor (z' & [= <-] & Hz).
      assert (z ∈ [0; 1; 2; 3; 4; 31; 32; 33; 34; 35; 36; 37; 38; 39; 40;
                   41; 42; 43; 44; 45; 46; 47; 48; 49]) as Hin.
      { rewrite !elem_of_cons. lia. }
      rewrite !elem_of_cons, elem_of_nil in Hin.
      repeat (destruct Hin as [-> | Hin]; [by vm_compute in Hcolor|]).
      done.
    + intros Hz.
      assert (¬ (0 <= z <= 4 ∨ 31 <= z <= 49)) as Hout by (intros ?; eauto).
      unfold layer_color.
      rewrite !(is_case_outside z)
        by (done ||
            (cbv [F_Cu In1_Cu In2_Cu In3_Cu In4_Cu B_Cu B_Adhes F_Adhes
                  B_Paste F_Paste B_SilkS F_SilkS B_Mask F_Mask Dwgs_User
                  Cmts_User Eco1_User Eco2_User Edge_Cuts Margin B_CrtYd
                  F_CrtYd B_Fab F_Fab]; lia)).
      done.
  - split; [intros _ (z & ? & _); done | done].
  - split; [intros _ (z & ? & _); done | done].
Qed.

End layers_facts.

Section server_facts.
Import Server.

Lemma on_probe_tracked (before : option probe) (p : probe) (s : state) :
  old_server_status s
  = match before with
    | None => -1
    | Some Loaded => 1
    | Some Failed => 0
    end →
  let s' := on_probe p s in
  console s'
  = console s ++ (if decide (before = Some p) then [] else [message p]) ∧
  server_status s' = match p with Loaded => 1 | Failed => 0 end ∧
  old_server_status s' = server_status s' ∧
  server_offline_display s'
  = match p with Loaded => "none" | Failed => "block" end%string.
Proof.
  intros Hold. destruct p; simpl;
    unfold server_is_online, server_is_offline, log_change; simpl;
    rewrite Hold; destruct before as [[]|]; simpl;
    rewrite ?app_nil_r; done.
Qed.

Lemma probes_tracked (before : option probe) (ps : list probe) (s : state) :
  old_server_status s
  = match before with
    | None => -1
    | Some Loaded => 1
    | Some Failed => 0
    end →
  let s' := probes ps s in
  console s' = console s ++ (message <$> changes before ps) ∧
  (ps ≠ [] → old_server_status s' = server_status s') ∧
  server_offline_display s'
  = match last ps with
    | Some Loaded => "none"
    | Some Failed => "block"
    | None => server_offline_display s
    end%string.
Proof.
  revert before s. induction ps as [|p ps IH]; intros before s Hold.
  - simpl. by rewrite app_nil_r.
  - destruct (on_probe_tracked before p s Hold) as (Hc & Hs & Ho & Hd).
    destruct (IH (Some p) (on_probe p s)) as (Hc' & Ho' & Hd').
    { rewrite Ho, Hs. by destruct p. }
    change (probes (p :: ps) s) with (probes ps (on_probe p s)).
    split; [|split].
    + rewrite Hc', Hc, <- app_assoc. cbn [changes].
      destruct (decide (before = Some p)); reflexivity.
    + intros _. destruct ps as [|p' ps]; [exact Ho | by apply Ho'].
    + rewrite Hd'. destruct ps as [|p' ps]; [simpl; rewrite Hd; by destruct p|].
      change (last (p :: p' :: ps)) with (last (p' :: ps)).
      destruct (last (p' :: ps)) as [[]|] eqn:E; [done | done |].
      by apply last_None in E.
Qed.

(** X27. From the initial values of the two status variables, after
    any sequence of answers to the probes: the console has one line for
    the first answer and one for every answer that differs from the one
    before it, and no other; the [server_offline] element is hidden when
    the last probe loaded and shown when it failed; and after one answer
    or more the two status variables agree. *)
Theorem server_status_logged_on_change (display : string) (ps : list probe) :
  let s' := probes ps (initial display) in
  console s' = message <$> changes None ps ∧
  (ps ≠ [] → old_server_status s' = server_status s') ∧
  server_offline_display s'
  = match last ps with
    | Some Loaded => "none"
    | Some Failed => "block"
    | None => display
    end%string.
Proof. by apply (probes_tracked None ps (initial display)). Qed.

End server_facts.
